(** * http-kit: the retry policy and the retrying request executor

    A shallow embedding of [retry.go] (package [httpkit]):
    [RetryOptions], [DefaultRetryOptions], [IsRetryableError],
    [CalculateRetryDelay] and [DoRequestWithRetry].

    Go's [int], [time.Duration] and [float64] are modelled on a 64-bit
    target: [int] and [time.Duration] are 64-bit two's complement integers
    (a [Z] with the wrap-around written out), [float64] is IEEE 754
    binary64 (the Standard Library's [spec_float] at precision 53). *)

From Stdlib Require Import ZArith List Bool String Lia.
From Stdlib Require Import Floats.SpecFloat.
From Equations Require Import Equations.
Import ListNotations.

Local Open Scope Z_scope.

(** ** Machine integers *)

Module Int64.

Definition min_int : Z := - 2 ^ 63.
Definition max_int : Z := 2 ^ 63 - 1.

(** Two's complement wrap-around of a mathematical integer. *)
Definition wrap (z : Z) : Z := (z + 2 ^ 63) mod 2 ^ 64 - 2 ^ 63.

Definition in_range (z : Z) : bool := (min_int <=? z) && (z <=? max_int).

Definition add (a b : Z) : Z := wrap (a + b).
Definition sub (a b : Z) : Z := wrap (a - b).

End Int64.

(** ** Binary64 floating point *)

Module Float64.

Definition prec : Z := 53.
Definition emax : Z := 1024.

Definition float64 := spec_float.

(** [float64(x)] for an integer [x]: round to nearest, ties to even. *)
Definition of_int (x : Z) : float64 := binary_normalize prec emax x 0 false.

(** [a * b] on [float64]. *)
Definition mul (a b : float64) : float64 := SFmul prec emax a b.

(** The integer part of a finite float, the fraction discarded
    (truncation towards zero). *)
Definition trunc (s : bool) (m : positive) (e : Z) : Z :=
  let mag := if 0 <=? e then Z.shiftl (Z.pos m) e
             else Z.shiftr (Z.pos m) (- e) in
  if s then - mag else mag.

Section Conversion.

(** A conversion of a float that the integer type cannot represent
    (too large, infinite, not a number) "succeeds but the result value
    is implementation-dependent" (Go specification, Conversions).
    [conv_oor] is that result. *)
Variable conv_oor : float64 -> Z.

(** [int64(f)], and so [time.Duration(f)]. *)
Definition to_int64 (f : float64) : Z :=
  match f with
  | S754_zero _ => 0
  | S754_finite s m e =>
      let t := trunc s m e in
      if Int64.in_range t then t else Int64.wrap (conv_oor f)
  | S754_infinity _ | S754_nan => Int64.wrap (conv_oor f)
  end.

End Conversion.

(** On amd64 the conversion instruction yields the "integer indefinite"
    value [0x8000000000000000] for every unrepresentable input. *)
Definition conv_oor_amd64 (_ : float64) : Z := Int64.min_int.

(** On arm64 the conversion saturates, and a NaN converts to [0]. *)
Definition conv_oor_arm64 (f : float64) : Z :=
  match f with
  | S754_finite true _ _ | S754_infinity true => Int64.min_int
  | S754_finite false _ _ | S754_infinity false => Int64.max_int
  | _ => 0
  end.

(** The constants [2.0] and [1.0]. *)
Definition two : float64 := Eval cbv in of_int 2.
Definition one : float64 := Eval cbv in of_int 1.

(** The normal form of a positive integer [p] of at most 53 bits as a
    float: a mantissa of exactly 53 bits, [p] shifted left, and the
    exponent that undoes the shift.  [holds p f] says that [f] is that
    float, so that [f] is [p] with no rounding. *)
Definition holds (p : positive) (f : float64) : Prop :=
  exists m,
    Z.pos (digits2_pos m) = 53 /\
    Z.pos m = Z.pos p * 2 ^ (53 - Z.pos (digits2_pos p)) /\
    f = S754_finite false m (Z.pos (digits2_pos p) - 53).

(** The same for a non-negative integer, [0] being [+0]. *)
Definition holdsZ (z : Z) (f : float64) : Prop :=
  match z with
  | Z0 => f = S754_zero false
  | Z.pos p => holds p f
  | Z.neg _ => False
  end.

End Float64.

Import Float64.

(** ** Durations and status codes *)

(** [time.Duration] counts nanoseconds. *)
Definition Nanosecond : Z := 1.
Definition Millisecond : Z := 1000000 * Nanosecond.
Definition Second : Z := 1000 * Millisecond.

(** The [net/http] status constants the package names. *)
Definition StatusOK : Z := 200.
Definition StatusBadRequest : Z := 400.
Definition StatusRequestTimeout : Z := 408.
Definition StatusTooManyRequests : Z := 429.
Definition StatusInternalServerError : Z := 500.
Definition StatusBadGateway : Z := 502.
Definition StatusServiceUnavailable : Z := 503.
Definition StatusGatewayTimeout : Z := 504.

(** ** Errors *)

(** A Go [error] value.  [ExternalError] is an error made outside this
    package (by the transport, or [ctx.Err()]); the others are the three
    shapes of [fmt.Errorf] the package uses: a plain message, a message
    with a [%d] argument, and a message wrapping an error with [%w]. *)
Inductive error : Type :=
| ExternalError (msg : string)
| Errorf (msg : string)
| Errorf_d (msg : string) (d : Z)
| Errorf_w (msg : string) (wrapped : error).

(** ** RetryOptions *)

Record RetryOptions : Type := {
  MaxRetries : Z;
  RetryDelay : Z;
  MaxRetryDelay : Z;
  BackoffMultiplier : float64;
  RetryableStatusCodes : list Z
}.

Definition DefaultRetryOptions : RetryOptions := {|
  MaxRetries := 3;
  RetryDelay := 100 * Millisecond;
  MaxRetryDelay := 2 * Second;
  BackoffMultiplier := Float64.two;
  RetryableStatusCodes := [
    StatusRequestTimeout;
    StatusTooManyRequests;
    StatusInternalServerError;
    StatusBadGateway;
    StatusServiceUnavailable;
    StatusGatewayTimeout
  ]
|}.

(** The [for _, code := range r.RetryableStatusCodes] loop of
    [IsRetryableError], with its early [return true]. *)
Fixpoint range_status_codes (statusCode : Z) (codes : list Z) : bool :=
  match codes with
  | [] => false
  | code :: rest =>
      if statusCode =? code then true
      else range_status_codes statusCode rest
  end.

(** [err] is [None] for Go's [nil]. *)
Definition IsRetryableError (r : RetryOptions) (err : option error)
    (statusCode : Z) : bool :=
  if MaxRetries r =? 0 then false
  else
    match err with
    | Some _ => true
    | None => range_status_codes statusCode (RetryableStatusCodes r)
    end.

Section Delay.

Variable conv_oor : float64 -> Z.

(** The product before the cap:
    [time.Duration(float64(r.RetryDelay) * float64(attempt+1) * r.BackoffMultiplier)]. *)
Definition raw_delay (r : RetryOptions) (attempt : Z) : Z :=
  to_int64 conv_oor
    (mul (mul (of_int (RetryDelay r)) (of_int (Int64.add attempt 1)))
         (BackoffMultiplier r)).

Definition CalculateRetryDelay (r : RetryOptions) (attempt : Z) : Z :=
  let delay := raw_delay r attempt in
  if delay >? MaxRetryDelay r then MaxRetryDelay r else delay.

End Delay.

(** ** The request executor *)

(** What the loop reads of an [http.Response]: its status code, and a
    body that is closed when the response is discarded. *)
Record Response : Type := {
  StatusCode : Z;
  Body : string
}.

(** What [DoRequestWithRetry] does to the outside, in the order it does
    it.  [attempt] is the value of the loop variable. *)
Inductive Event : Type :=
| EvWait (attempt : Z) (delay : Z) (done : option error)
    (** the [select] of the backoff wait; [done] is [Some (ctx.Err())]
        when [ctx.Done()] was taken, [None] when [time.After(delay)] was *)
| EvDo (attempt : Z) (res : Response + error)
    (** [c.Do(req)] and what it returned *)
| EvClose (resp : Response).
    (** [resp.Body.Close()] *)

(** The [return] statement that ended the call. *)
Inductive Exit : Type :=
| ExitCancelled (ctxErr : error)
    (** [return nil, ctx.Err()] *)
| ExitNotRetryable (err : error)
    (** [return nil, fmt.Errorf("failed to execute request: %w", err)] *)
| ExitRetriesExhausted (lastErr : error)
    (** [return nil, fmt.Errorf("failed to execute request after retries: %w", lastErr)] *)
| ExitResponse (resp : Response)
    (** [return resp, nil] *)
| ExitFailedAfterRetries (lastErr : error)
    (** after the loop: [return nil, fmt.Errorf("failed after retries: %w", lastErr)] *)
| ExitNoAttempts.
    (** after the loop: [return nil, fmt.Errorf("no attempts made")] *)

(** The pair of results, response and error, a [return] statement yields. *)
Definition returned (x : Exit) : option Response * option error :=
  match x with
  | ExitCancelled ctxErr => (None, Some ctxErr)
  | ExitNotRetryable err =>
      (None, Some (Errorf_w "failed to execute request: %w" err))
  | ExitRetriesExhausted lastErr =>
      (None, Some (Errorf_w "failed to execute request after retries: %w" lastErr))
  | ExitResponse resp => (Some resp, None)
  | ExitFailedAfterRetries lastErr =>
      (None, Some (Errorf_w "failed after retries: %w" lastErr))
  | ExitNoAttempts => (None, Some (Errorf "no attempts made"))
  end.

(** How one pass through the loop body ends: at a [return], or at a
    [continue] with the new value of [lastErr]. *)
Inductive Control : Type :=
| Return (x : Exit)
| Continue (lastErr : option error).

(** The number of [c.Do] calls in a trace. *)
Fixpoint invocations (tr : list Event) : Z :=
  match tr with
  | [] => 0
  | EvDo _ _ :: rest => 1 + invocations rest
  | _ :: rest => invocations rest
  end.

Section Executor.

Variable conv_oor : float64 -> Z.

(** The collaborators.  [World] is the state of everything outside the
    call: the server, the network, the clock, the caller's context. *)
Variables World Request Ctx : Type.

(** [c.Do(req)].  [http.Client.Do] returns a response or an error; the
    loop looks at the response only when the error is [nil]. *)
Variable client_Do : Request -> World -> (Response + error) * World.

(** The [select] between [<-ctx.Done()] and [<-time.After(delay)]:
    [Some (ctx.Err())] when the first case is taken, [None] when the
    timer is. *)
Variable select_wait : Ctx -> Z -> World -> option error * World.

(** [resp.Body.Close()]; its result is dropped. *)
Variable body_Close : Response -> World -> World.

Section Loop.

Variable ctx : Ctx.
Variable req : Request.
Variable retryOpts : RetryOptions.

(** [maxAttempts := retryOpts.MaxRetries + 1] *)
Definition maxAttempts : Z := Int64.add (MaxRetries retryOpts) 1.

(** Lines 79-89: the wait before a retry. *)
Definition backoff_wait (attempt : Z) (w : World)
    : option error * list Event * World :=
  if attempt >? 0 then
    let delay := CalculateRetryDelay conv_oor retryOpts (Int64.sub attempt 1) in
    let '(done, w1) := select_wait ctx delay w in
    (done, [EvWait attempt delay done], w1)
  else (None, [], w).

(** Lines 79-113: one pass through the loop body. *)
Definition attempt_body (attempt : Z) (lastErr : option error) (w : World)
    : Control * list Event * World :=
  let '(done, tr_wait, w1) := backoff_wait attempt w in
  match done with
  | Some ctxErr => (Return (ExitCancelled ctxErr), tr_wait, w1)
  | None =>
      let '(res, w2) := client_Do req w1 in
      match res with
      | inr err =>
          let lastErr := Some err in
          if negb (IsRetryableError retryOpts (Some err) 0) then
            (Return (ExitNotRetryable err), tr_wait ++ [EvDo attempt res], w2)
          else if attempt >=? MaxRetries retryOpts then
            (Return (ExitRetriesExhausted err), tr_wait ++ [EvDo attempt res], w2)
          else
            (Continue lastErr, tr_wait ++ [EvDo attempt res], w2)
      | inl resp =>
          if IsRetryableError retryOpts None (StatusCode resp)
             && (attempt <? MaxRetries retryOpts) then
            let w3 := body_Close resp w2 in
            let lastErr :=
              Some (Errorf_d "server error: status %d" (StatusCode resp)) in
            (Continue lastErr,
             tr_wait ++ [EvDo attempt res; EvClose resp], w3)
          else
            (Return (ExitResponse resp), tr_wait ++ [EvDo attempt res], w2)
      end
  end.

(** Lines 116-120: after the loop. *)
Definition after_loop (lastErr : option error) : Exit :=
  match lastErr with
  | Some e => ExitFailedAfterRetries e
  | None => ExitNoAttempts
  end.

(** [for attempt := 0; attempt < maxAttempts; attempt++ { ... }], from
    the given value of [attempt] on.  [attempt++] cannot wrap around:
    it runs only when [attempt < maxAttempts], and [maxAttempts] is an
    [int]. *)
Equations? attempt_loop (attempt : Z) (lastErr : option error) (w : World)
    : Exit * list Event * World
    by wf (Z.to_nat (maxAttempts - attempt)) lt :=
  attempt_loop attempt lastErr w with Z_lt_dec attempt maxAttempts := {
    | left _ with attempt_body attempt lastErr w := {
        | (Return x, tr, w') => (x, tr, w')
        | (Continue lastErr', tr, w') =>
            let '(x, tr', w'') := attempt_loop (attempt + 1) lastErr' w' in
            (x, tr ++ tr', w'')
      }
    | right _ => (after_loop lastErr, [], w)
  }.
Proof. lia. Qed.

End Loop.

(** Lines 69-71: [if retryOpts == nil { retryOpts = DefaultRetryOptions() }];
    [retryOpts] is [None] for Go's [nil]. *)
Definition effective_options (retryOpts : option RetryOptions) : RetryOptions :=
  match retryOpts with
  | None => DefaultRetryOptions
  | Some r => r
  end.

(** The call yields the [return] statement that ended it, the events in
    the order they happened, and the world it leaves. *)
Definition DoRequestWithRetry (ctx : Ctx) (req : Request)
    (retryOpts : option RetryOptions) (w : World)
    : Exit * list Event * World :=
  let retryOpts := effective_options retryOpts in
  let lastErr : option error := None in
  attempt_loop ctx req retryOpts 0 lastErr w.

End Executor.

(** The last event of a trace. *)
Definition final_event (tr : list Event) : option Event :=
  last (map Some tr) None.

(** The parts of what a call yields. *)
Definition exit_of {W : Type} (res : Exit * list Event * W) : Exit :=
  fst (fst res).

Definition trace_of {W : Type} (res : Exit * list Event * W) : list Event :=
  snd (fst res).

Definition world_of {W : Type} (res : Exit * list Event * W) : W :=
  snd res.

(** ** Outside worlds to run the executor in *)

(** A requester that gives the same answer to every request, under a
    context that is never cancelled.  Nothing changes, so the world is
    [unit]. *)
Module Constant.

Definition World : Type := unit.

Definition client_Do (answer : Response + error) (req : unit) (w : World)
    : (Response + error) * World := (answer, w).

Definition select_wait (ctx : unit) (delay : Z) (w : World)
    : option error * World := (None, w).

Definition body_Close (resp : Response) (w : World) : World := w.

End Constant.

(** A requester that reads its answers off a script, one per request, and
    a context whose part in each backoff wait is scripted too.  When the
    answers run out the connection is refused; when the signals run out
    the context stays silent. *)
Module Script.

Record World : Type := {
  answers : list (Response + error);
  signals : list (option error);
  closed : list Response
}.

Definition connection_refused : error := ExternalError "connection refused".

Definition client_Do (req : unit) (w : World) : (Response + error) * World :=
  match answers w with
  | [] => (inr connection_refused, w)
  | a :: rest =>
      (a, {| answers := rest; signals := signals w; closed := closed w |})
  end.

Definition select_wait (ctx : unit) (delay : Z) (w : World)
    : option error * World :=
  match signals w with
  | [] => (None, w)
  | s :: rest =>
      (s, {| answers := answers w; signals := rest; closed := closed w |})
  end.

Definition body_Close (resp : Response) (w : World) : World :=
  {| answers := answers w; signals := signals w; closed := resp :: closed w |}.

(** [context.Canceled] *)
Definition Canceled : error := ExternalError "context canceled".

Definition start (answers : list (Response + error))
    (signals : list (option error)) : World :=
  {| answers := answers; signals := signals; closed := [] |}.

Definition run (conv_oor : float64 -> Z) (retryOpts : option RetryOptions)
    (w : World) : Exit * list Event * World :=
  DoRequestWithRetry conv_oor World unit unit
    client_Do select_wait body_Close tt tt retryOpts w.

(** Responses and a policy for the scenarios of the package's tests: at
    most [n] retries, on status 503 only, 100ms base delay, 2s ceiling,
    multiplier 2.0. *)
Definition unavailable : Response :=
  {| StatusCode := StatusServiceUnavailable; Body := "unavailable" |}.

Definition ok : Response := {| StatusCode := StatusOK; Body := "ok" |}.

Definition bad_request : Response :=
  {| StatusCode := StatusBadRequest; Body := "bad request" |}.

Definition retry_on_503 (n : Z) : RetryOptions :=
  {| MaxRetries := n;
     RetryDelay := 100 * Millisecond;
     MaxRetryDelay := 2 * Second;
     BackoffMultiplier := Float64.two;
     RetryableStatusCodes := [StatusServiceUnavailable] |}.

End Script.

(** ** The runs of the loop, the world left out

    What a pass through the loop body, and a run of the loop, can do: the
    way it ends and the events it leaves, whatever the collaborators
    answer. *)

Section Runs.

Variable conv_oor : float64 -> Z.
Variable r : RetryOptions.

(** The backoff wait before the pass at [attempt], the timer firing. *)
Definition waited (attempt : Z) : list Event :=
  if attempt >? 0 then
    [EvWait attempt (CalculateRetryDelay conv_oor r (Int64.sub attempt 1)) None]
  else [].

(** The six ways through the loop body at [attempt], one for each
    [return] and each [continue], with the events of each. *)
Inductive pass (attempt : Z) : Control -> list Event -> Prop :=
| pass_cancelled ctxErr :
    0 < attempt ->
    pass attempt (Return (ExitCancelled ctxErr))
      [EvWait attempt (CalculateRetryDelay conv_oor r (Int64.sub attempt 1))
         (Some ctxErr)]
| pass_not_retryable err :
    IsRetryableError r (Some err) 0 = false ->
    pass attempt (Return (ExitNotRetryable err))
      (waited attempt ++ [EvDo attempt (inr err)])
| pass_exhausted err :
    IsRetryableError r (Some err) 0 = true ->
    MaxRetries r <= attempt ->
    pass attempt (Return (ExitRetriesExhausted err))
      (waited attempt ++ [EvDo attempt (inr err)])
| pass_retry_error err :
    IsRetryableError r (Some err) 0 = true ->
    attempt < MaxRetries r ->
    pass attempt (Continue (Some err))
      (waited attempt ++ [EvDo attempt (inr err)])
| pass_retry_status resp :
    IsRetryableError r None (StatusCode resp) = true ->
    attempt < MaxRetries r ->
    pass attempt
      (Continue (Some (Errorf_d "server error: status %d" (StatusCode resp))))
      (waited attempt ++ [EvDo attempt (inl resp); EvClose resp])
| pass_response resp :
    IsRetryableError r None (StatusCode resp) = false
    \/ MaxRetries r <= attempt ->
    pass attempt (Return (ExitResponse resp))
      (waited attempt ++ [EvDo attempt (inl resp)]).

(** The runs of the loop from [attempt] on: the condition fails and the
    statements after the loop decide; or a pass returns; or a pass
    continues and the run goes on from [attempt + 1]. *)
Inductive run_from : Z -> option error -> Exit -> list Event -> Prop :=
| run_exit attempt lastErr :
    ~ attempt < maxAttempts r ->
    run_from attempt lastErr (after_loop lastErr) []
| run_return attempt lastErr x tr :
    attempt < maxAttempts r ->
    pass attempt (Return x) tr ->
    run_from attempt lastErr x tr
| run_continue attempt lastErr lastErr' tr x tr' :
    attempt < maxAttempts r ->
    pass attempt (Continue lastErr') tr ->
    run_from (attempt + 1) lastErr' x tr' ->
    run_from attempt lastErr x (tr ++ tr').

End Runs.

(** ** What a trace holds *)

(** The responses obtained, those whose body was closed, and the delays
    of the backoff waits, each in the order of the trace. *)
Fixpoint responses (tr : list Event) : list Response :=
  match tr with
  | [] => []
  | EvDo _ (inl resp) :: rest => resp :: responses rest
  | _ :: rest => responses rest
  end.

Fixpoint closes (tr : list Event) : list Response :=
  match tr with
  | [] => []
  | EvClose resp :: rest => resp :: closes rest
  | _ :: rest => closes rest
  end.

Fixpoint waits (tr : list Event) : list Z :=
  match tr with
  | [] => []
  | EvWait _ delay _ :: rest => delay :: waits rest
  | _ :: rest => waits rest
  end.

(** The time spent in backoff waits, had every wait run to its end. *)
Definition total_wait (tr : list Event) : Z := fold_right Z.add 0 (waits tr).

(** An answer after which the loop goes on when attempts are left. *)
Definition retryable_answer (r : RetryOptions) (res : Response + error) : bool :=
  match res with
  | inr err => IsRetryableError r (Some err) 0
  | inl resp => IsRetryableError r None (StatusCode resp)
  end.

(** ** The client ([client.go]) *)

(** What [client.go] uses of [net/http]: a header map with its [Get] and
    [Set], a request, and [http.Client]. *)
Module Http.

(** [http.Header], a map from header names to lists of values, as an
    association list read at its first binding of a name.  [Get] and
    [Set] put the name in canonical form first; the only name the client
    passes, ["User-Agent"], is in that form already.  The map is an
    allocated one, as [http.NewRequest] makes it: on a nil map [Get]
    gives [""] and [Set] panics, and no request here has a nil one. *)
Definition Header : Type := list (string * list string).

Fixpoint lookup (key : string) (h : Header) : option (list string) :=
  match h with
  | [] => None
  | (k, vs) :: rest => if (k =? key)%string then Some vs else lookup key rest
  end.

Fixpoint remove (key : string) (h : Header) : Header :=
  match h with
  | [] => []
  | (k, vs) :: rest =>
      if (k =? key)%string then remove key rest else (k, vs) :: remove key rest
  end.

(** [h.Get(key)]: the first value of [key], [""] when there is none. *)
Definition Header_Get (h : Header) (key : string) : string :=
  match lookup key h with
  | Some (v :: _) => v
  | _ => ""%string
  end.

(** [h.Set(key, value)]: [key] now has the one value [value]. *)
Definition Header_Set (h : Header) (key value : string) : Header :=
  (key, [value]) :: remove key h.

Record Request : Type := {
  Method : string;
  URL : string;
  Header_ : Header
}.

End Http.

Section ClientModel.

(** Values of other packages that the client only passes around: an
    [http.RoundTripper], an [x509.CertPool], a [tls.Certificate]. *)
Variables RoundTripper CertPool Certificate : Type.

(** [os.ReadFile], [x509.NewCertPool], the pool's [AppendCertsFromPEM]
    (the pool after the call, and whether a certificate was parsed) and
    [tls.LoadX509KeyPair]. *)
Variable os_ReadFile : string -> string + error.
Variable NewCertPool : CertPool.
Variable AppendCertsFromPEM : CertPool -> string -> CertPool * bool.
Variable LoadX509KeyPair : string -> string -> Certificate + error.

(** [tls.Config], the fields the client sets. *)
Record TLSConfig : Type := {
  TLS_InsecureSkipVerify : bool;
  TLS_ServerName : string;
  TLS_RootCAs : option CertPool;
  TLS_Certificates : list Certificate
}.

(** The [Transport] of an [http.Client]: the caller's own round tripper,
    or an [http.Transport] with a TLS configuration. *)
Inductive TransportValue : Type :=
| CustomTransport (rt : RoundTripper)
| HttpTransport (TLSClientConfig : TLSConfig).

(** [http.Client]; a [nil] [Transport] stands for [http.DefaultTransport]. *)
Record HttpClient : Type := {
  HC_Timeout : Z;
  HC_Transport : option TransportValue
}.

Record Client : Type := {
  httpClient : HttpClient;
  baseURL : string;
  userAgent : string
}.

Record Options : Type := {
  BaseURL : string;
  Timeout : Z;
  UserAgent : string;
  Transport : option RoundTripper;
  TLSCACertFile : string;
  TLSClientCert : string;
  TLSClientKey : string;
  TLSServerName : string;
  InsecureSkipVerify : bool
}.

Definition DefaultOptions : Options := {|
  BaseURL := "";
  Timeout := 10 * Second;
  UserAgent := "";
  Transport := None;
  TLSCACertFile := "";
  TLSClientCert := "";
  TLSClientKey := "";
  TLSServerName := "";
  InsecureSkipVerify := false
|}.

(** [None] for a [nil] error. *)
Definition Validate (o : Options) : option error :=
  if (BaseURL o =? "")%string then Some (Errorf "base URL is required")
  else None.

(** Lines 69-80 of [NewClient]: the CA certificate. *)
Definition load_ca (opts : Options) (tlsConfig : TLSConfig)
    : TLSConfig + error :=
  if negb (TLSCACertFile opts =? "")%string then
    match os_ReadFile (TLSCACertFile opts) with
    | inr err => inr (Errorf_w "failed to read CA certificate: %w" err)
    | inl caCert =>
        let '(caCertPool, parsed) := AppendCertsFromPEM NewCertPool caCert in
        if negb parsed then inr (Errorf "failed to parse CA certificate")
        else
          inl {| TLS_InsecureSkipVerify := TLS_InsecureSkipVerify tlsConfig;
                 TLS_ServerName := TLS_ServerName tlsConfig;
                 TLS_RootCAs := Some caCertPool;
                 TLS_Certificates := TLS_Certificates tlsConfig |}
    end
  else inl tlsConfig.

(** Lines 82-89 of [NewClient]: the client certificate. *)
Definition load_client_cert (opts : Options) (tlsConfig : TLSConfig)
    : TLSConfig + error :=
  if negb (TLSClientCert opts =? "")%string
     && negb (TLSClientKey opts =? "")%string then
    match LoadX509KeyPair (TLSClientCert opts) (TLSClientKey opts) with
    | inr err => inr (Errorf_w "failed to load client certificate: %w" err)
    | inl cert =>
        inl {| TLS_InsecureSkipVerify := TLS_InsecureSkipVerify tlsConfig;
               TLS_ServerName := TLS_ServerName tlsConfig;
               TLS_RootCAs := TLS_RootCAs tlsConfig;
               TLS_Certificates := [cert] |}
    end
  else inl tlsConfig.

(** Lines 61-90 of [NewClient]: [tlsConfig], [None] for [nil]. *)
Definition configure_tls (opts : Options) : option TLSConfig + error :=
  if negb (TLSCACertFile opts =? "")%string
     || negb (TLSClientCert opts =? "")%string
     || InsecureSkipVerify opts then
    let tlsConfig := {| TLS_InsecureSkipVerify := InsecureSkipVerify opts;
                        TLS_ServerName := TLSServerName opts;
                        TLS_RootCAs := None;
                        TLS_Certificates := [] |} in
    match load_ca opts tlsConfig with
    | inr err => inr err
    | inl tlsConfig =>
        match load_client_cert opts tlsConfig with
        | inr err => inr err
        | inl tlsConfig => inl (Some tlsConfig)
        end
    end
  else inl None.

(** [opts] is [None] for Go's [nil]. *)
Definition NewClient (opts : option Options) : Client + error :=
  let opts := match opts with
              | None => DefaultOptions
              | Some o => o
              end in
  match Validate opts with
  | Some err => inr err
  | None =>
      match configure_tls opts with
      | inr err => inr err
      | inl tlsConfig =>
          let transport :=
            match Transport opts with
            | Some rt => Some (CustomTransport rt)
            | None =>
                match tlsConfig with
                | Some cfg => Some (HttpTransport cfg)
                | None => None
                end
            end in
          inl {| httpClient := {| HC_Timeout := Timeout opts;
                                  HC_Transport := transport |};
                 baseURL := BaseURL opts;
                 userAgent := UserAgent opts |}
      end
  end.

Definition GetBaseURL (c : Client) : string := baseURL c.

Definition GetHTTPClient (c : Client) : HttpClient := httpClient c.

(** Lines 114-116 of [Do]: the request after the [if] statement. *)
Definition with_user_agent (c : Client) (req : Http.Request) : Http.Request :=
  if negb (userAgent c =? "")%string
     && (Http.Header_Get (Http.Header_ req) "User-Agent" =? "")%string then
    {| Http.Method := Http.Method req;
       Http.URL := Http.URL req;
       Http.Header_ :=
         Http.Header_Set (Http.Header_ req) "User-Agent" (userAgent c) |}
  else req.

Section Sending.

(** The network, and the [Do] of [http.Client] on it, which leaves the
    caller's request as it is. *)
Variable Net : Type.
Variable http_Do :
  HttpClient -> Http.Request -> Net -> (Response + error) * Net.

(** [c.Do(req)]: the answer, the request as [Do] leaves it, and the
    network. *)
Definition Do (c : Client) (req : Http.Request) (net : Net)
    : (Response + error) * Http.Request * Net :=
  let req := with_user_agent c req in
  let '(res, net) := http_Do (httpClient c) req net in
  (res, req, net).

(** The world of a call of [c.DoRequestWithRetry(ctx, req, retryOpts)]:
    the request [req] points to, the requests handed to the
    [http.Client] so far, and the network. *)
Record ClientWorld : Type := {
  request : Http.Request;
  sent : list Http.Request;
  network : Net
}.

Variable Ctx : Type.
Variable select_wait : Ctx -> Z -> Net -> option error * Net.
Variable body_Close : Response -> Net -> Net.

Definition world_Do (c : Client) (_ : unit) (w : ClientWorld)
    : (Response + error) * ClientWorld :=
  let '(res, req, net) := Do c (request w) (network w) in
  (res, {| request := req; sent := sent w ++ [req]; network := net |}).

Definition world_select (ctx : Ctx) (delay : Z) (w : ClientWorld)
    : option error * ClientWorld :=
  let '(done, net) := select_wait ctx delay (network w) in
  (done, {| request := request w; sent := sent w; network := net |}).

Definition world_Close (resp : Response) (w : ClientWorld) : ClientWorld :=
  {| request := request w; sent := sent w;
     network := body_Close resp (network w) |}.

(** The method [(c *Client) DoRequestWithRetry]: the executor with [c.Do]
    as its requester. *)
Definition Client_DoRequestWithRetry (conv_oor : float64 -> Z) (c : Client)
    (ctx : Ctx) (req : Http.Request) (retryOpts : option RetryOptions)
    (net : Net) : Exit * list Event * ClientWorld :=
  DoRequestWithRetry conv_oor ClientWorld unit Ctx
    (world_Do c) world_select world_Close ctx tt retryOpts
    {| request := req; sent := []; network := net |}.

End Sending.

End ClientModel.

Arguments TLS_InsecureSkipVerify {CertPool Certificate} _.
Arguments TLS_ServerName {CertPool Certificate} _.
Arguments TLS_RootCAs {CertPool Certificate} _.
Arguments TLS_Certificates {CertPool Certificate} _.
Arguments CustomTransport {RoundTripper CertPool Certificate} rt.
Arguments HttpTransport {RoundTripper CertPool Certificate} TLSClientConfig.
Arguments HC_Timeout {RoundTripper CertPool Certificate} _.
Arguments HC_Transport {RoundTripper CertPool Certificate} _.
Arguments httpClient {RoundTripper CertPool Certificate} _.
Arguments baseURL {RoundTripper CertPool Certificate} _.
Arguments userAgent {RoundTripper CertPool Certificate} _.
Arguments BaseURL {RoundTripper} _.
Arguments Timeout {RoundTripper} _.
Arguments UserAgent {RoundTripper} _.
Arguments Transport {RoundTripper} _.
Arguments TLSCACertFile {RoundTripper} _.
Arguments TLSClientCert {RoundTripper} _.
Arguments TLSClientKey {RoundTripper} _.
Arguments TLSServerName {RoundTripper} _.
Arguments InsecureSkipVerify {RoundTripper} _.
Arguments DefaultOptions {RoundTripper}.
Arguments Validate {RoundTripper} o.
Arguments GetBaseURL {RoundTripper CertPool Certificate} c.
Arguments GetHTTPClient {RoundTripper CertPool Certificate} c.
Arguments with_user_agent {RoundTripper CertPool Certificate} c req.
Arguments Do {RoundTripper CertPool Certificate Net} http_Do c req net.
Arguments request {Net} _.
Arguments sent {Net} _.
Arguments network {Net} _.

(** ** A machine to build clients on *)

(** A file system that holds a CA certificate, a client certificate and
    its key; a certificate pool is the list of the PEM blocks added to
    it, of which an empty one parses to nothing; and a network on which
    every request is answered 200. *)
Module Disk.

Definition RoundTripper : Type := string.
Definition CertPool : Type := list string.
Definition Certificate : Type := (string * string)%type.

Definition not_exist : error := ExternalError "no such file or directory".

Definition os_ReadFile (name : string) : string + error :=
  if (name =? "ca.pem")%string then inl "-----BEGIN CERTIFICATE-----"%string
  else if (name =? "empty.pem")%string then inl ""%string
  else inr not_exist.

Definition NewCertPool : CertPool := [].

Definition AppendCertsFromPEM (pool : CertPool) (pem : string)
    : CertPool * bool :=
  if (pem =? "")%string then (pool, false) else (pem :: pool, true).

Definition LoadX509KeyPair (certFile keyFile : string) : Certificate + error :=
  if (certFile =? "client.pem")%string && (keyFile =? "client.key")%string
  then inl (certFile, keyFile)
  else inr not_exist.

Definition NewClient (opts : option (Options RoundTripper))
    : Client RoundTripper CertPool Certificate + error :=
  NewClient RoundTripper CertPool Certificate os_ReadFile NewCertPool
    AppendCertsFromPEM LoadX509KeyPair opts.

(** Options with a base URL and a timeout of 5s, and nothing else. *)
Definition plain : Options RoundTripper := {|
  BaseURL := "https://api.example.com";
  Timeout := 5 * Second;
  UserAgent := "http-kit";
  Transport := None;
  TLSCACertFile := "";
  TLSClientCert := "";
  TLSClientKey := "";
  TLSServerName := "";
  InsecureSkipVerify := false
|}.

(** The same with a CA certificate, a client certificate and its key,
    and a server name. *)
Definition mutual_tls : Options RoundTripper := {|
  BaseURL := "https://api.example.com";
  Timeout := 5 * Second;
  UserAgent := "http-kit";
  Transport := None;
  TLSCACertFile := "ca.pem";
  TLSClientCert := "client.pem";
  TLSClientKey := "client.key";
  TLSServerName := "api.example.com";
  InsecureSkipVerify := false
|}.

(** The same over the caller's own transport. *)
Definition own_transport : Options RoundTripper := {|
  BaseURL := "https://api.example.com";
  Timeout := 5 * Second;
  UserAgent := "http-kit";
  Transport := Some "round tripper"%string;
  TLSCACertFile := "ca.pem";
  TLSClientCert := "client.pem";
  TLSClientKey := "client.key";
  TLSServerName := "api.example.com";
  InsecureSkipVerify := false
|}.

(** The same with a CA file that is not there. *)
Definition missing_ca : Options RoundTripper := {|
  BaseURL := "https://api.example.com";
  Timeout := 5 * Second;
  UserAgent := "http-kit";
  Transport := None;
  TLSCACertFile := "missing.pem";
  TLSClientCert := "client.pem";
  TLSClientKey := "client.key";
  TLSServerName := "api.example.com";
  InsecureSkipVerify := false
|}.

(** The network: the requests it has seen. *)
Definition Net : Type := list Http.Request.

Definition http_Do (hc : HttpClient RoundTripper CertPool Certificate)
    (req : Http.Request) (net : Net) : (Response + error) * Net :=
  (inl {| StatusCode := StatusOK; Body := "ok" |}, net ++ [req]).

(** A request that accepts JSON and names no user agent. *)
Definition get_users : Http.Request := {|
  Http.Method := "GET";
  Http.URL := "https://api.example.com/users";
  Http.Header_ := [("Accept"%string, ["application/json"%string])]
|}.

End Disk.

(** * Properties *)

(** ** Machine integers *)

Lemma wrap_small z :
  Int64.min_int <= z <= Int64.max_int -> Int64.wrap z = z.
Proof.
  unfold Int64.wrap, Int64.min_int, Int64.max_int. intros H.
  rewrite Z.mod_small by lia. lia.
Qed.

Lemma wrap_range z : Int64.min_int <= Int64.wrap z <= Int64.max_int.
Proof.
  unfold Int64.wrap, Int64.min_int, Int64.max_int.
  pose proof (Z.mod_pos_bound (z + 2 ^ 63) (2 ^ 64) ltac:(lia)). lia.
Qed.

Lemma add_1_exact z :
  Int64.min_int <= z < Int64.max_int -> Int64.add z 1 = z + 1.
Proof. intros H. apply wrap_small. lia. Qed.

Lemma add_1_max_int : Int64.add Int64.max_int 1 = Int64.min_int.
Proof. reflexivity. Qed.

Lemma sub_1_exact z :
  Int64.min_int < z <= Int64.max_int -> Int64.sub z 1 = z - 1.
Proof. intros H. apply wrap_small. lia. Qed.

(** [attempt++] in the loop of [DoRequestWithRetry] does not wrap around:
    the loop variable is below [maxAttempts], itself an [int]. *)
Lemma increment_does_not_wrap (r : RetryOptions) attempt :
  Int64.min_int <= attempt -> attempt < maxAttempts r ->
  Int64.add attempt 1 = attempt + 1.
Proof.
  intros Hmin Hlt. apply add_1_exact.
  pose proof (wrap_range (MaxRetries r + 1)) as Hw.
  unfold maxAttempts, Int64.add in Hlt. lia.
Qed.

(** ** Binary64 floating point: integers held exactly *)

(** [digits2_pos] counts the bits of a positive number. *)
Lemma digits2_pos_size p : digits2_pos p = Pos.size p.
Proof. induction p; simpl; congruence. Qed.

(** A number of [d] bits lies in [[2 ^ (d - 1), 2 ^ d)]. *)
Lemma digits2_bounds p :
  2 ^ (Z.pos (digits2_pos p) - 1) <= Z.pos p < 2 ^ Z.pos (digits2_pos p).
Proof.
  rewrite digits2_pos_size.
  pose proof (Pos.size_gt p) as Hgt. pose proof (Pos.size_le p) as Hle.
  apply Pos2Z.pos_lt_pos in Hgt. apply Pos2Z.pos_le_pos in Hle.
  rewrite Pos2Z.inj_pow in Hgt, Hle.
  split; [|exact Hgt].
  assert (H2 : 2 ^ Z.pos (Pos.size p) = 2 * 2 ^ (Z.pos (Pos.size p) - 1)).
  { rewrite <- Z.pow_succ_r by lia. f_equal. lia. }
  rewrite H2 in Hle. change (Z.pos p~0) with (2 * Z.pos p) in Hle. lia.
Qed.

(** And [d] is the only such exponent. *)
Lemma digits2_unique p d :
  2 ^ (d - 1) <= Z.pos p < 2 ^ d -> Z.pos (digits2_pos p) = d.
Proof.
  intros [Hlo Hhi]. pose proof (digits2_bounds p) as [Hlo' Hhi'].
  set (d' := Z.pos (digits2_pos p)) in *.
  assert (Hpos : 0 < d).
  { destruct (Z_lt_le_dec 0 d) as [|Hle]; [assumption|].
    destruct (Z.eq_dec d 0) as [->|Hne]; [simpl in Hhi; lia|].
    rewrite Z.pow_neg_r in Hhi by lia. lia. }
  destruct (Z.lt_trichotomy d' d) as [Hlt | [Heq | Hgt]]; [|exact Heq|].
  - assert (2 ^ d' <= 2 ^ (d - 1)) by (apply Z.pow_le_mono_r; lia). lia.
  - assert (2 ^ d <= 2 ^ (d' - 1)) by (apply Z.pow_le_mono_r; lia). lia.
Qed.

(** The iterator of the rounding functions is [Pos.iter]. *)
Lemma iter_pos_iter {A} (f : A -> A) p x : iter_pos f p x = Pos.iter f x p.
Proof.
  revert x. induction p as [p IH|p IH|]; intros x; simpl.
  - rewrite !IH, <- !Pos.iter_swap. reflexivity.
  - rewrite !IH. reflexivity.
  - reflexivity.
Qed.

(** Appending [k] zero bits multiplies by [2 ^ k]. *)
Lemma iter_xO p k : Z.pos (Pos.iter xO p k) = Z.pos p * 2 ^ Z.pos k.
Proof.
  induction k as [|k IH] using Pos.peano_ind.
  - simpl. lia.
  - rewrite Pos.iter_succ, Pos2Z.inj_succ, Z.pow_succ_r by lia.
    change (Z.pos (Pos.iter xO p k)~0) with (2 * Z.pos (Pos.iter xO p k)).
    rewrite IH. ring.
Qed.

(** Shifting an even mantissa right by one bit loses nothing: neither the
    round bit nor the sticky bit is set. *)
Lemma shr_1_even m :
  0 <= m ->
  shr_1 {| shr_m := 2 * m; shr_r := false; shr_s := false |}
  = {| shr_m := m; shr_r := false; shr_s := false |}.
Proof. destruct m as [|q|q]; intros H; [reflexivity | reflexivity | lia]. Qed.

(** Nor does shifting right by [k] bits a mantissa whose [k] low bits are
    zero. *)
Lemma shr_exact m k :
  0 <= m ->
  iter_pos shr_1 k
    {| shr_m := m * 2 ^ Z.pos k; shr_r := false; shr_s := false |}
  = {| shr_m := m; shr_r := false; shr_s := false |}.
Proof.
  intros Hm. rewrite iter_pos_iter.
  induction k as [|k IH] using Pos.peano_ind.
  - replace (m * 2 ^ 1) with (2 * m) by lia.
    change (Pos.iter shr_1 ?x 1) with (shr_1 x). apply shr_1_even, Hm.
  - rewrite Pos.iter_succ, <- Pos.iter_swap.
    rewrite Pos2Z.inj_succ, Z.pow_succ_r by lia.
    replace (m * (2 * 2 ^ Z.pos k)) with (2 * (m * 2 ^ Z.pos k)) by ring.
    rewrite shr_1_even by (apply Z.mul_nonneg_nonneg; lia). exact IH.
Qed.

(** Rounding a mantissa of [D >= 53] bits whose [D - 53] low bits are zero. *)
Lemma round_aux_exact s (M M' : positive) (E : Z) :
  let D := Z.pos (digits2_pos M) in
  Z.pos (digits2_pos M') = 53 ->
  53 <= D ->
  Z.pos M = Z.pos M' * 2 ^ (D - 53) ->
  -1074 <= E + D - 53 <= 971 ->
  binary_round_aux prec emax s (Z.pos M) E loc_Exact
  = S754_finite s M' (E + D - 53).
Proof.
  intros D HM' HD HM HE.
  unfold binary_round_aux.
  assert (Hfexp : forall e, -1074 <= e - 53 -> fexp prec emax e = e - 53).
  { intros e He. unfold fexp, emin, prec, emax. lia. }
  assert (Hstep1 : shr_fexp prec emax (Z.pos M) E loc_Exact
                   = ({| shr_m := Z.pos M'; shr_r := false; shr_s := false |},
                      E + D - 53)).
  { unfold shr_fexp. cbn [Zdigits2 shr_record_of_loc]. fold D.
    rewrite Hfexp by lia.
    replace (D + E - 53 - E) with (D - 53) by lia.
    unfold shr. destruct (D - 53) as [|k|k] eqn:Hk; [| |lia].
    - rewrite HM. f_equal; [|lia]. f_equal. simpl. lia.
    - rewrite HM. rewrite shr_exact by lia. f_equal. lia. }
  rewrite Hstep1. cbn [shr_m loc_of_shr_record round_nearest_even].
  assert (Hstep2 : shr_fexp prec emax (Z.pos M') (E + D - 53) loc_Exact
                   = ({| shr_m := Z.pos M'; shr_r := false; shr_s := false |},
                      E + D - 53)).
  { unfold shr_fexp. cbn [Zdigits2 shr_record_of_loc]. rewrite HM'.
    rewrite Hfexp by lia.
    replace (53 + (E + D - 53) - 53 - (E + D - 53)) with 0 by lia.
    reflexivity. }
  rewrite Hstep2. cbn [shr_m].
  unfold prec, emax.
  destruct (Z.leb_spec (E + D - 53) (1024 - 53)); [reflexivity | lia].
Qed.

(** A number below [2 ^ 53] has at most 53 bits. *)
Lemma digits2_le_53 p : Z.pos p < 2 ^ 53 -> Z.pos (digits2_pos p) <= 53.
Proof.
  intros H. pose proof (digits2_bounds p) as [Hlo _].
  destruct (Z_le_gt_dec (Z.pos (digits2_pos p)) 53) as [|Hgt]; [assumption|].
  assert (2 ^ 53 <= 2 ^ (Z.pos (digits2_pos p) - 1))
    by (apply Z.pow_le_mono_r; lia).
  lia.
Qed.

(** Multiplying by [2 ^ k] adds [k] bits. *)
Lemma digits2_shift (m p : positive) k :
  0 <= k -> Z.pos m = Z.pos p * 2 ^ k ->
  Z.pos (digits2_pos m) = Z.pos (digits2_pos p) + k.
Proof.
  intros Hk Hm. apply digits2_unique. rewrite Hm.
  pose proof (digits2_bounds p) as [Hlo Hhi].
  replace (Z.pos (digits2_pos p) + k - 1)
    with (Z.pos (digits2_pos p) - 1 + k) by lia.
  rewrite !Z.pow_add_r by lia.
  assert (0 < 2 ^ k) by (apply Z.pow_pos_nonneg; lia).
  split; [apply Z.mul_le_mono_nonneg_r; lia | apply Z.mul_lt_mono_pos_r; lia].
Qed.

(** [float64(p)] holds a positive [p < 2 ^ 53] exactly. *)
Lemma of_int_holds p : Z.pos p < 2 ^ 53 -> holds p (of_int (Z.pos p)).
Proof.
  intros Hp. pose proof (digits2_le_53 p Hp) as Hd.
  unfold of_int, binary_normalize, binary_round.
  set (d := Z.pos (digits2_pos p)) in *.
  assert (Hfexp : fexp prec emax (d + 0) = d - 53).
  { unfold fexp, emin, prec, emax. lia. }
  rewrite Hfexp. unfold shl_align.
  destruct (d - 53 - 0) as [|k|k] eqn:Hk; [| lia |].
  - exists p. fold d. replace (53 - d) with 0 by lia.
    split; [fold d; lia|]. split; [lia|].
    rewrite (round_aux_exact false p p 0); fold d.
    + f_equal; lia.
    + lia.
    + lia.
    + replace (d - 53) with 0 by lia. lia.
    + lia.
  - assert (HM : Z.pos (Pos.iter xO p k) = Z.pos p * 2 ^ (53 - d)).
    { rewrite iter_xO. f_equal. f_equal. lia. }
    assert (HD : Z.pos (digits2_pos (Pos.iter xO p k)) = 53).
    { rewrite (digits2_shift _ p (53 - d)) by (lia || exact HM). fold d. lia. }
    exists (Pos.iter xO p k). fold d. split; [exact HD|]. split; [exact HM|].
    rewrite (round_aux_exact false _ (Pos.iter xO p k)).
    + rewrite HD. f_equal; lia.
    + exact HD.
    + rewrite HD. lia.
    + rewrite HD. replace (53 - 53) with 0 by lia. lia.
    + rewrite HD. lia.
Qed.

(** Powers of two are ordered as their exponents. *)
Lemma pow_lt_inv a b n : 2 ^ a <= n < 2 ^ b -> 0 <= a -> a < b.
Proof.
  intros [Hlo Hhi] Ha. destruct (Z_lt_le_dec a b) as [|Hle]; [assumption|].
  destruct (Z_lt_le_dec b 0).
  - rewrite Z.pow_neg_r in Hhi by lia.
    assert (0 < 2 ^ a) by (apply Z.pow_pos_nonneg; lia). lia.
  - assert (2 ^ b <= 2 ^ a) by (apply Z.pow_le_mono_r; lia). lia.
Qed.

(** The product of two floats that hold [p] and [q] holds [p * q], when
    that is below [2 ^ 53]: the 105 or 106 bits of the product of the
    mantissas end in enough zeros for the rounding to drop only zeros. *)
Lemma mul_holds p q f g :
  holds p f -> holds q g -> Z.pos (p * q) < 2 ^ 53 ->
  holds (p * q) (mul f g).
Proof.
  intros (m1 & Hd1 & Hm1 & ->) (m2 & Hd2 & Hm2 & ->) Hpq.
  set (d1 := Z.pos (digits2_pos p)) in *.
  set (d2 := Z.pos (digits2_pos q)) in *.
  pose proof (digits2_bounds p) as [Hlo1 Hhi1]. fold d1 in Hlo1, Hhi1.
  pose proof (digits2_bounds q) as [Hlo2 Hhi2]. fold d2 in Hlo2, Hhi2.
  pose proof (digits2_bounds (p * q)) as [HloN HhiN].
  pose proof (digits2_le_53 _ Hpq) as HdN.
  set (dN := Z.pos (digits2_pos (p * q))) in *.
  assert (Hd1pos : 1 <= d1) by (unfold d1; lia).
  assert (Hd2pos : 1 <= d2) by (unfold d2; lia).
  assert (HdNpos : 1 <= dN) by (unfold dN; lia).
  assert (Hprod : 2 ^ (d1 + d2 - 2) <= Z.pos (p * q)).
  { replace (d1 + d2 - 2) with ((d1 - 1) + (d2 - 1)) by lia.
    rewrite Z.pow_add_r by lia. rewrite Pos2Z.inj_mul.
    apply Z.mul_le_mono_nonneg; try lia; apply Z.pow_nonneg; lia. }
  assert (HdNlo : d1 + d2 - 1 <= dN).
  { assert (d1 + d2 - 2 < dN) by (apply (pow_lt_inv _ _ (Z.pos (p * q))); lia).
    lia. }
  assert (Hd1le : d1 <= 53).
  { apply digits2_le_53.
    assert (Z.pos p <= Z.pos (p * q)) by (rewrite Pos2Z.inj_mul; nia). lia. }
  assert (Hd2le : d2 <= 53).
  { apply digits2_le_53.
    assert (Z.pos q <= Z.pos (p * q)) by (rewrite Pos2Z.inj_mul; nia). lia. }
  set (M' := Z.to_pos (Z.pos (p * q) * 2 ^ (53 - dN))).
  assert (HM' : Z.pos M' = Z.pos (p * q) * 2 ^ (53 - dN)).
  { unfold M'. rewrite Z2Pos.id; [reflexivity|].
    apply Z.mul_pos_pos; [lia | apply Z.pow_pos_nonneg; lia]. }
  assert (HdM' : Z.pos (digits2_pos M') = 53).
  { rewrite (digits2_shift _ (p * q) (53 - dN)) by (lia || exact HM').
    fold dN. lia. }
  assert (HM : Z.pos (m1 * m2) = Z.pos (p * q) * 2 ^ (106 - d1 - d2)).
  { rewrite Pos2Z.inj_mul, Hm1, Hm2, Pos2Z.inj_mul.
    replace (106 - d1 - d2) with ((53 - d1) + (53 - d2)) by lia.
    rewrite Z.pow_add_r by lia. ring. }
  assert (HD : Z.pos (digits2_pos (m1 * m2)) = dN + 106 - d1 - d2).
  { rewrite (digits2_shift _ (p * q) (106 - d1 - d2)) by (lia || exact HM).
    fold dN. lia. }
  exists M'. fold dN. split; [exact HdM'|]. split; [exact HM'|].
  unfold mul, SFmul. cbn [xorb].
  rewrite (round_aux_exact false (m1 * m2) M').
  - rewrite HD. f_equal; lia.
  - exact HdM'.
  - rewrite HD. lia.
  - rewrite HD, HM, HM'. rewrite <- Z.mul_assoc, <- Z.pow_add_r by lia.
    f_equal. f_equal. lia.
  - rewrite HD. lia.
Qed.

(** Converting back a float that holds [p] gives [p]. *)
Lemma to_int64_holds conv_oor p f :
  holds p f -> Z.pos p < 2 ^ 53 -> to_int64 conv_oor f = Z.pos p.
Proof.
  intros (m & Hdm & Hm & ->) Hp.
  pose proof (digits2_le_53 p Hp) as Hd.
  set (d := Z.pos (digits2_pos p)) in *.
  assert (Hd1 : 1 <= d) by (unfold d; lia).
  unfold to_int64.
  assert (Ht : trunc false m (d - 53) = Z.pos p).
  { unfold trunc. destruct (Z.leb_spec 0 (d - 53)).
    - assert (Hd53 : d = 53) by lia.
      rewrite Hm, Hd53. rewrite Z.shiftl_0_r. cbn. lia.
    - rewrite Z.shiftr_div_pow2 by lia. rewrite Hm.
      replace (- (d - 53)) with (53 - d) by lia.
      apply Z.div_mul. apply Z.pow_nonzero; lia. }
  rewrite Ht.
  unfold Int64.in_range, Int64.min_int, Int64.max_int.
  destruct (Z.leb_spec (- 2 ^ 63) (Z.pos p)); [|lia].
  destruct (Z.leb_spec (Z.pos p) (2 ^ 63 - 1)); [reflexivity | lia].
Qed.

(** The same three facts with zero included. *)
Lemma of_int_holdsZ z : 0 <= z < 2 ^ 53 -> holdsZ z (of_int z).
Proof.
  destruct z as [|p|p]; intros Hz; [reflexivity | | lia].
  apply of_int_holds. lia.
Qed.

Lemma mul_holdsZ a b f g :
  holdsZ a f -> holdsZ b g -> a * b < 2 ^ 53 -> holdsZ (a * b) (mul f g).
Proof.
  destruct a as [|p|p], b as [|q|q]; cbn [holdsZ Z.mul];
    intros Hf Hg Hab; try contradiction.
  - subst. reflexivity.
  - subst. destruct Hg as (m & _ & _ & ->). reflexivity.
  - subst. destruct Hf as (m & _ & _ & ->). reflexivity.
  - apply mul_holds; assumption.
Qed.

Lemma to_int64_holdsZ conv_oor z f :
  holdsZ z f -> z < 2 ^ 53 -> to_int64 conv_oor f = z.
Proof.
  destruct z as [|p|p]; cbn [holdsZ]; intros Hf Hz; [|  |contradiction].
  - subst. reflexivity.
  - apply to_int64_holds; assumption.
Qed.

(** With a whole multiplier [k] and factors and products below [2 ^ 53],
    no operation of the product rounds: the delay before the cap is the
    product of the integers. *)
Lemma raw_delay_exact conv_oor (r : RetryOptions) attempt k :
  BackoffMultiplier r = of_int k ->
  0 <= RetryDelay r < 2 ^ 53 ->
  0 <= attempt -> attempt + 1 < 2 ^ 53 ->
  0 <= k < 2 ^ 53 ->
  RetryDelay r * (attempt + 1) < 2 ^ 53 ->
  RetryDelay r * (attempt + 1) * k < 2 ^ 53 ->
  raw_delay conv_oor r attempt = RetryDelay r * (attempt + 1) * k.
Proof.
  intros Hmult Hbase Hatt Hatt' Hk Hprod1 Hprod2.
  unfold raw_delay. rewrite Hmult.
  rewrite add_1_exact by (unfold Int64.min_int, Int64.max_int; lia).
  apply to_int64_holdsZ; [|lia].
  apply mul_holdsZ; [|apply of_int_holdsZ; lia|lia].
  apply mul_holdsZ; [| |lia]; apply of_int_holdsZ; lia.
Qed.

(** ** The retry policy *)

Lemma range_status_codes_In statusCode codes :
  range_status_codes statusCode codes = true <-> In statusCode codes.
Proof.
  induction codes as [|code rest IH]; simpl.
  - split; [discriminate | contradiction].
  - destruct (Z.eqb_spec statusCode code) as [->|Hne].
    + split; auto.
    + rewrite IH. split; [auto | intros [Heq|Hin]; [congruence | exact Hin]].
Qed.

(** C2.  [IsRetryableError] answers [true] exactly when [MaxRetries] is
    not zero and either the error is not [nil] or the status code is one
    of [RetryableStatusCodes].  So with [MaxRetries == 0] the answer is
    [false] whatever the outcome; otherwise every transport error is
    retryable; otherwise a response is retryable if and only if its status
    code is in the list, and never when the list is empty. *)
Theorem IsRetryableError_iff (r : RetryOptions) (err : option error)
    (statusCode : Z) :
  IsRetryableError r err statusCode = true <->
  MaxRetries r <> 0 /\
  (err <> None \/ In statusCode (RetryableStatusCodes r)).
Proof.
  unfold IsRetryableError.
  destruct (Z.eqb_spec (MaxRetries r) 0) as [H0|H0].
  - split; [discriminate | intros [Hne _]; contradiction].
  - destruct err as [e|].
    + split; [intros _; split; [exact H0 | left; discriminate] | reflexivity].
    + rewrite range_status_codes_In.
      split.
      * intros Hin. split; [exact H0 | right; exact Hin].
      * intros [_ [Hne|Hin]]; [contradiction | exact Hin].
Qed.

Lemma IsRetryableError_zero (r : RetryOptions) err statusCode :
  MaxRetries r = 0 -> IsRetryableError r err statusCode = false.
Proof. unfold IsRetryableError. intros ->. reflexivity. Qed.

Lemma IsRetryableError_transport (r : RetryOptions) e statusCode :
  MaxRetries r <> 0 -> IsRetryableError r (Some e) statusCode = true.
Proof.
  intros H. apply IsRetryableError_iff. split; [exact H | left; discriminate].
Qed.

Lemma IsRetryableError_no_codes (r : RetryOptions) statusCode :
  RetryableStatusCodes r = [] -> IsRetryableError r None statusCode = false.
Proof.
  intros H. unfold IsRetryableError. rewrite H.
  destruct (MaxRetries r =? 0); reflexivity.
Qed.

(** The policy of the delay tests: base 100ms, ceiling 2s, multiplier 2.0. *)
Lemma delays_grow_linearly (conv_oor : float64 -> Z) (n : Z) codes :
  let r := {| MaxRetries := n; RetryDelay := 100 * Millisecond;
              MaxRetryDelay := 2 * Second; BackoffMultiplier := Float64.two;
              RetryableStatusCodes := codes |} in
  map (CalculateRetryDelay conv_oor r) [0; 1; 2; 3; 4; 5] =
  [200 * Millisecond; 400 * Millisecond; 600 * Millisecond;
   800 * Millisecond; 1000 * Millisecond; 1200 * Millisecond].
Proof. reflexivity. Qed.

(** Base 500ms, ceiling 1s, multiplier 2.0: the sixth delay, 6000ms before
    the cap, is the ceiling. *)
Lemma delay_is_capped (conv_oor : float64 -> Z) (n : Z) codes :
  let r := {| MaxRetries := n; RetryDelay := 500 * Millisecond;
              MaxRetryDelay := 1 * Second; BackoffMultiplier := Float64.two;
              RetryableStatusCodes := codes |} in
  raw_delay conv_oor r 5 = 6000 * Millisecond /\
  CalculateRetryDelay conv_oor r 5 = 1 * Second.
Proof. split; reflexivity. Qed.


(** ** The loop *)

Section LoopFacts.

Variable conv_oor : float64 -> Z.
Variables World Request Ctx : Type.
Variable client_Do : Request -> World -> (Response + error) * World.
Variable select_wait : Ctx -> Z -> World -> option error * World.
Variable body_Close : Response -> World -> World.
Variable ctx : Ctx.
Variable req : Request.
Variable r : RetryOptions.

Local Abbreviation body :=
  (attempt_body conv_oor World Request Ctx client_Do select_wait body_Close
     ctx req r).
Local Abbreviation loop :=
  (attempt_loop conv_oor World Request Ctx client_Do select_wait body_Close
     ctx req r).

Lemma loop_exit attempt lastErr w :
  ~ attempt < maxAttempts r ->
  loop attempt lastErr w = (after_loop lastErr, [], w).
Proof.
  intros H. rewrite attempt_loop_equation_1.
  destruct (Z_lt_dec attempt (maxAttempts r)) as [Hlt|Hge]; [contradiction|].
  reflexivity.
Qed.

Lemma loop_return attempt lastErr w x tr w' :
  attempt < maxAttempts r ->
  body attempt lastErr w = (Return x, tr, w') ->
  loop attempt lastErr w = (x, tr, w').
Proof.
  intros H Hb. rewrite attempt_loop_equation_1.
  destruct (Z_lt_dec attempt (maxAttempts r)) as [Hlt|Hge]; [|contradiction].
  cbn. rewrite Hb. reflexivity.
Qed.

Lemma loop_continue attempt lastErr w lastErr' tr w' :
  attempt < maxAttempts r ->
  body attempt lastErr w = (Continue lastErr', tr, w') ->
  loop attempt lastErr w =
    let '(x, tr', w'') := loop (attempt + 1) lastErr' w' in
    (x, tr ++ tr', w'').
Proof.
  intros H Hb. rewrite attempt_loop_equation_1.
  destruct (Z_lt_dec attempt (maxAttempts r)) as [Hlt|Hge]; [|contradiction].
  cbn. rewrite Hb. reflexivity.
Qed.

(** Induction over the passes of the loop. *)
Lemma loop_ind
    (P : Z -> option error -> World -> Exit * list Event * World -> Prop) :
  (forall attempt lastErr w,
      ~ attempt < maxAttempts r ->
      P attempt lastErr w (after_loop lastErr, [], w)) ->
  (forall attempt lastErr w x tr w',
      attempt < maxAttempts r ->
      body attempt lastErr w = (Return x, tr, w') ->
      P attempt lastErr w (x, tr, w')) ->
  (forall attempt lastErr w lastErr' tr w' x tr' w'',
      attempt < maxAttempts r ->
      body attempt lastErr w = (Continue lastErr', tr, w') ->
      loop (attempt + 1) lastErr' w' = (x, tr', w'') ->
      P (attempt + 1) lastErr' w' (x, tr', w'') ->
      P attempt lastErr w (x, tr ++ tr', w'')) ->
  forall attempt lastErr w, P attempt lastErr w (loop attempt lastErr w).
Proof.
  intros Hexit Hret Hcont attempt.
  remember (Z.to_nat (maxAttempts r - attempt)) as n eqn:Hn.
  revert attempt Hn.
  induction n as [n IH] using lt_wf_ind.
  intros attempt Hn lastErr w.
  destruct (Z_lt_dec attempt (maxAttempts r)) as [Hlt|Hge].
  - destruct (body attempt lastErr w) as [[[x|lastErr'] tr] w'] eqn:Hb.
    + rewrite (loop_return _ _ _ _ _ _ Hlt Hb). apply Hret; assumption.
    + rewrite (loop_continue _ _ _ _ _ _ Hlt Hb).
      destruct (loop (attempt + 1) lastErr' w') as [[x tr'] w''] eqn:Hl.
      apply (Hcont _ _ _ _ _ _ _ _ _ Hlt Hb Hl).
      rewrite <- Hl.
      apply (IH (Z.to_nat (maxAttempts r - (attempt + 1)))); [lia | reflexivity].
  - rewrite (loop_exit _ _ _ Hge). apply Hexit; assumption.
Qed.


(** Every pass of the code is one of the passes of [pass]. *)
Lemma body_pass attempt lastErr w c tr w' :
  body attempt lastErr w = (c, tr, w') ->
  pass conv_oor r attempt c tr.
Proof.
  unfold attempt_body, backoff_wait, waited.
  destruct (Z.gtb_spec attempt 0) as [Hpos|Hzero].
  - destruct (select_wait ctx _ w) as [[ctxErr|] w1].
    + intros H; inversion H; subst. apply pass_cancelled; lia.
    + destruct (client_Do req w1) as [[resp|err] w2].
      * destruct (IsRetryableError r None (StatusCode resp)) eqn:Hr;
          destruct (Z.ltb_spec attempt (MaxRetries r)) as [Hlt|Hge];
          cbn [andb]; intros H; inversion H; subst;
          pose proof (pass_response conv_oor r attempt resp) as P;
          pose proof (pass_retry_status conv_oor r attempt resp) as Q;
          unfold waited in P, Q;
          destruct (Z.gtb_spec attempt 0); try lia; auto.
      * destruct (IsRetryableError r (Some err) 0) eqn:Hr; cbn [negb];
          [destruct (Z.geb_spec attempt (MaxRetries r)) as [Hge|Hlt]|];
          intros H; inversion H; subst;
          pose proof (pass_not_retryable conv_oor r attempt err) as P;
          pose proof (pass_exhausted conv_oor r attempt err) as Q;
          pose proof (pass_retry_error conv_oor r attempt err) as R;
          unfold waited in P, Q, R;
          destruct (Z.gtb_spec attempt 0); try lia; auto with zarith.
  - destruct (client_Do req w) as [[resp|err] w2].
    + destruct (IsRetryableError r None (StatusCode resp)) eqn:Hr;
        destruct (Z.ltb_spec attempt (MaxRetries r)) as [Hlt|Hge];
        cbn [andb]; intros H; inversion H; subst;
        pose proof (pass_response conv_oor r attempt resp) as P;
        pose proof (pass_retry_status conv_oor r attempt resp) as Q;
        unfold waited in P, Q;
        destruct (Z.gtb_spec attempt 0); try lia; auto.
    + destruct (IsRetryableError r (Some err) 0) eqn:Hr; cbn [negb];
        [destruct (Z.geb_spec attempt (MaxRetries r)) as [Hge|Hlt]|];
        intros H; inversion H; subst;
        pose proof (pass_not_retryable conv_oor r attempt err) as P;
        pose proof (pass_exhausted conv_oor r attempt err) as Q;
        pose proof (pass_retry_error conv_oor r attempt err) as R;
        unfold waited in P, Q, R;
        destruct (Z.gtb_spec attempt 0); try lia; auto with zarith.
Qed.

(** Every run of the code is one of the runs of [run_from]. *)
Lemma loop_run_from attempt lastErr w :
  let '(x, tr, _) := loop attempt lastErr w in
  run_from conv_oor r attempt lastErr x tr.
Proof.
  apply (loop_ind
           (fun attempt lastErr w res =>
              let '(x, tr, _) := res in run_from conv_oor r attempt lastErr x tr)).
  - intros. apply run_exit; assumption.
  - intros a l w0 x tr w' Hlt Hb. apply run_return; [assumption|].
    eapply body_pass; eassumption.
  - intros a l w0 l' tr w' x tr' w'' Hlt Hb _ IH.
    eapply run_continue; [assumption | eapply body_pass; eassumption | exact IH].
Qed.

End LoopFacts.

(** ** Traces *)

Lemma invocations_app tr1 tr2 :
  invocations (tr1 ++ tr2) = invocations tr1 + invocations tr2.
Proof.
  induction tr1 as [|[k d c|k res|resp] tr1 IH]; cbn [invocations app]; lia.
Qed.

Lemma final_event_cons ev tr :
  tr <> [] -> final_event (ev :: tr) = final_event tr.
Proof. destruct tr; [congruence | reflexivity]. Qed.

Lemma final_event_app tr1 tr2 :
  tr2 <> [] -> final_event (tr1 ++ tr2) = final_event tr2.
Proof.
  intros H. induction tr1 as [|ev tr1 IH]; [reflexivity|].
  simpl app. rewrite final_event_cons; [exact IH|].
  destruct tr1; simpl; [exact H | discriminate].
Qed.

Lemma final_event_last tr ev : final_event (tr ++ [ev]) = Some ev.
Proof. rewrite final_event_app by discriminate. reflexivity. Qed.

Lemma final_event_In tr ev : final_event tr = Some ev -> In ev tr.
Proof.
  induction tr as [|ev' tr IH]; [discriminate|].
  destruct tr as [|ev'' tr].
  - intros H; inversion H. left; reflexivity.
  - rewrite final_event_cons by discriminate. intros H. right. auto.
Qed.

(** ** Passes and runs *)

Section RunFacts.

Variable conv_oor : float64 -> Z.
Variable r : RetryOptions.

Local Abbreviation delay := (CalculateRetryDelay conv_oor r).
Local Abbreviation Waited := (waited conv_oor r).
Local Abbreviation pass := (pass conv_oor r).
Local Abbreviation run_from := (run_from conv_oor r).

Lemma waited_In attempt ev :
  In ev (Waited attempt) ->
  0 < attempt /\ ev = EvWait attempt (delay (Int64.sub attempt 1)) None.
Proof.
  unfold waited. destruct (Z.gtb_spec attempt 0) as [H|H].
  - intros [<-|[]]. split; [lia | reflexivity].
  - intros [].
Qed.

Lemma invocations_waited attempt : invocations (Waited attempt) = 0.
Proof. unfold waited. destruct (attempt >? 0); reflexivity. Qed.

(** Splits an occurrence in a trace made of a wait, a request and what
    follows. *)
Ltac split_In H :=
  repeat match type of H with
  | In _ (_ ++ _) => apply in_app_or in H; destruct H as [H|H]
  | In _ (Waited _) => apply waited_In in H; destruct H as [? H]
  | In _ (_ :: _) => destruct H as [H|H]
  | In _ [] => destruct H
  end.

(** A wait in a pass is the wait of that pass; when the context is done in
    it, the pass returns the context's error and does nothing more. *)
Lemma pass_wait attempt c tr k d done :
  pass attempt c tr ->
  In (EvWait k d done) tr ->
  k = attempt /\ 0 < attempt /\ d = delay (Int64.sub attempt 1) /\
  match done with
  | Some ctxErr => c = Return (ExitCancelled ctxErr) /\ tr = [EvWait k d done]
  | None => exists res post, tr = EvWait k d None :: EvDo attempt res :: post
  end.
Proof.
  intros Hp Hin.
  destruct Hp; split_In Hin; try discriminate;
    inversion Hin; subst;
    (repeat split; try assumption; try reflexivity).
  all: unfold waited; destruct (Z.gtb_spec attempt 0); try lia;
    eexists; eexists; reflexivity.
Qed.

(** A request in a pass is the request of that pass, after the wait. *)
Lemma pass_do attempt c tr k res :
  pass attempt c tr ->
  In (EvDo k res) tr ->
  k = attempt /\ exists post, tr = Waited attempt ++ EvDo attempt res :: post.
Proof.
  intros Hp Hin.
  destruct Hp; split_In Hin; try discriminate;
    inversion Hin; subst; (split; [reflexivity|]);
    eexists; reflexivity.
Qed.

Lemma pass_invocations attempt c tr :
  pass attempt c tr ->
  invocations tr = match c with
                   | Return (ExitCancelled _) => 0
                   | _ => 1
                   end.
Proof.
  intros Hp. destruct Hp;
    rewrite ?invocations_app, ?invocations_waited; reflexivity.
Qed.

(** A response obtained in a pass is returned by it exactly when its
    status is not retryable or no retry is left; otherwise its body is
    closed and the loop goes on. *)
Lemma pass_response_iff attempt c tr k resp :
  pass attempt c tr ->
  In (EvDo k (inl resp)) tr ->
  k = attempt /\
  ((c = Return (ExitResponse resp) /\
    final_event tr = Some (EvDo k (inl resp)) /\
    (IsRetryableError r None (StatusCode resp) = false
     \/ MaxRetries r <= attempt))
   \/
   ((exists lastErr, c = Continue lastErr) /\
    final_event tr = Some (EvClose resp) /\
    IsRetryableError r None (StatusCode resp) = true /\
    attempt < MaxRetries r)).
Proof.
  intros Hp Hin.
  destruct Hp; split_In Hin; try discriminate;
    inversion Hin; subst; (split; [reflexivity|]).
  - right. split; [eexists; reflexivity|].
    split; [|split; assumption].
    match goal with
    | |- context [?pre ++ [?x; ?y]] =>
        change (pre ++ [x; y]) with (pre ++ [x] ++ [y])
    end.
    rewrite app_assoc. apply final_event_last.
  - left. split; [reflexivity|]. split; [apply final_event_last | assumption].
Qed.

Lemma pass_continue_lt attempt lastErr tr :
  pass attempt (Continue lastErr) tr -> attempt < MaxRetries r.
Proof. inversion 1; assumption. Qed.

Lemma pass_nonempty attempt c tr : pass attempt c tr -> tr <> [].
Proof.
  destruct 1; try discriminate;
    intros Hnil; apply app_eq_nil in Hnil; destruct Hnil; discriminate.
Qed.

(** The requests of a run from [attempt] on carry the loop variable, which
    only grows and stays under [maxAttempts]. *)
Lemma run_do_index attempt lastErr x tr k res :
  run_from attempt lastErr x tr ->
  In (EvDo k res) tr ->
  attempt <= k < maxAttempts r.
Proof.
  intros Hrun. induction Hrun as
      [a l Hge | a l x tr Hlt Hp | a l l' tr x tr' Hlt Hp Hrun IH];
    intros Hin.
  - destruct Hin.
  - apply (pass_do _ _ _ _ _ Hp) in Hin. lia.
  - apply in_app_or in Hin. destruct Hin as [Hin|Hin].
    + apply (pass_do _ _ _ _ _ Hp) in Hin. lia.
    + apply IH in Hin. lia.
Qed.

(** The waits of a run: each comes before a retry, never before the first
    attempt, and lasts what [CalculateRetryDelay] says for the attempt
    before. *)
Lemma run_wait_index attempt lastErr x tr k d done :
  run_from attempt lastErr x tr ->
  In (EvWait k d done) tr ->
  attempt <= k < maxAttempts r /\ 0 < k /\ d = delay (Int64.sub k 1).
Proof.
  intros Hrun. induction Hrun as
      [a l Hge | a l x tr Hlt Hp | a l l' tr x tr' Hlt Hp Hrun IH];
    intros Hin.
  - destruct Hin.
  - destruct (pass_wait _ _ _ _ _ _ Hp Hin) as (-> & Hpos & -> & _).
    repeat split; try lia.
  - apply in_app_or in Hin. destruct Hin as [Hin|Hin].
    + destruct (pass_wait _ _ _ _ _ _ Hp Hin) as (-> & Hpos & -> & _).
      repeat split; try lia.
    + destruct (IH Hin) as (Hk & Hpos & Hd).
      repeat split; try lia; assumption.
Qed.

(** Once the context is done in a wait the run is over: the context's
    error is returned, and nothing happens after the wait. *)
Lemma run_cancelled attempt lastErr x tr k d ctxErr :
  run_from attempt lastErr x tr ->
  (0 < attempt -> attempt <= MaxRetries r) ->
  In (EvWait k d (Some ctxErr)) tr ->
  x = ExitCancelled ctxErr /\
  final_event tr = Some (EvWait k d (Some ctxErr)) /\
  invocations tr = k - attempt /\
  k <= MaxRetries r.
Proof.
  intros Hrun. induction Hrun as
      [a l Hge | a l x tr Hlt Hp | a l l' tr x tr' Hlt Hp Hrun IH];
    intros Hpre Hin.
  - destruct Hin.
  - destruct (pass_wait _ _ _ _ _ _ Hp Hin) as (-> & Hpos & -> & Hc & ->).
    injection Hc as ->.
    repeat split; [cbn [invocations]; lia | auto].
  - apply in_app_or in Hin. destruct Hin as [Hin|Hin].
    + destruct (pass_wait _ _ _ _ _ _ Hp Hin) as (_ & _ & _ & Hc & _).
      discriminate.
    + pose proof (pass_continue_lt _ _ _ Hp) as Hlt'.
      destruct (IH ltac:(lia) Hin) as (-> & Hfin & Hinv & Hk).
      split; [reflexivity|].
      split; [rewrite final_event_app; [exact Hfin | intros ->; destruct Hin]|].
      split; [|exact Hk].
      rewrite invocations_app, Hinv, (pass_invocations _ _ _ Hp). lia.
Qed.

(** A response obtained on an attempt ends the run, as its result, exactly
    when its status is not retryable or the attempt is the last one. *)
Lemma run_response_iff attempt lastErr x tr k resp :
  run_from attempt lastErr x tr ->
  In (EvDo k (inl resp)) tr ->
  (x = ExitResponse resp /\ final_event tr = Some (EvDo k (inl resp)))
  <->
  (IsRetryableError r None (StatusCode resp) = false \/ MaxRetries r <= k).
Proof.
  intros Hrun. induction Hrun as
      [a l Hge | a l x tr Hlt Hp | a l l' tr x tr' Hlt Hp Hrun IH];
    intros Hin.
  - destruct Hin.
  - destruct (pass_response_iff _ _ _ _ _ Hp Hin)
      as (-> & [(Hc & Hfin & Hcond) | ((l' & Hc) & _)]); [|discriminate].
    injection Hc as ->. split; auto.
  - apply in_app_or in Hin. destruct Hin as [Hin|Hin].
    + destruct (pass_response_iff _ _ _ _ _ Hp Hin)
        as (-> & [(Hc & _) | (_ & Hfin & Hretry & Hlt')]); [discriminate|].
      split.
      * intros [_ Hfin']. exfalso.
        destruct tr' as [|ev tr'].
        -- rewrite app_nil_r in Hfin'. congruence.
        -- rewrite final_event_app in Hfin' by discriminate.
           apply final_event_In in Hfin'.
           apply (run_do_index _ _ _ _ _ _ Hrun) in Hfin'. lia.
      * intros [Hno | Hge]; [congruence | lia].
    + rewrite final_event_app by (intros ->; destruct Hin).
      apply IH. exact Hin.
Qed.

(** Where a request sits in a trace that starts with a pass: it is the
    request of that pass, or it comes after it. *)
Lemma split_at_do pre k res post attempt res' post' :
  pre ++ EvDo k res :: post = Waited attempt ++ EvDo attempt res' :: post' ->
  (pre = Waited attempt /\ k = attempt /\ res = res' /\ post = post')
  \/ (exists mid, pre = Waited attempt ++ EvDo attempt res' :: mid
                  /\ post' = mid ++ EvDo k res :: post).
Proof.
  unfold waited. destruct (attempt >? 0); cbn [app].
  - destruct pre as [|e1 [|e2 pre]]; cbn [app]; intros H.
    + discriminate.
    + injection H as -> <- <- <-. left. auto.
    + injection H as -> -> <-. right. eexists. split; reflexivity.
  - destruct pre as [|e1 pre]; cbn [app]; intros H.
    + injection H as <- <- <-. left. auto.
    + injection H as -> <-. right. eexists. split; reflexivity.
Qed.

(** A pass that makes its request leaves its wait, the request, and at
    most the closing of the response. *)
Lemma pass_shape attempt c tr :
  pass attempt c tr ->
  (exists ctxErr, c = Return (ExitCancelled ctxErr))
  \/ (exists res post,
        tr = Waited attempt ++ EvDo attempt res :: post /\
        (post = [] \/ exists resp, post = [EvClose resp])).
Proof.
  destruct 1; [left; eexists; reflexivity | right ..];
    eexists; eexists; (split; [reflexivity|]); eauto.
Qed.

(** In a run from [attempt] on, the request of the first pass comes right
    after the wait of that pass, and every later request right after the
    wait of its own pass. *)
Lemma run_do_preceded attempt lastErr x tr pre k res post :
  run_from attempt lastErr x tr ->
  tr = pre ++ EvDo k res :: post ->
  (k = attempt /\ pre = Waited attempt)
  \/ (attempt < k /\ exists pre', pre = pre' ++ Waited k).
Proof.
  intros Hrun. revert pre. induction Hrun as
      [a l Hge | a l x tr Hlt Hp | a l l' tr x tr' Hlt Hp Hrun IH];
    intros pre Heq.
  - destruct pre; discriminate.
  - destruct (pass_shape _ _ _ Hp) as [(e & Hc) | (res' & post' & -> & Hpost)].
    + inversion Hp; subst; try discriminate.
      destruct pre as [|e1 [|e2 pre]]; discriminate.
    + symmetry in Heq. apply split_at_do in Heq.
      destruct Heq as [(-> & -> & _) | (mid & _ & Hmid)]; [left; auto|].
      exfalso. destruct Hpost as [-> | (resp & ->)].
      * destruct mid; discriminate.
      * destruct mid as [|m1 [|m2 mid]]; discriminate.
  - destruct (pass_shape _ _ _ Hp) as [(e & Hc) | (res' & post' & -> & Hpost)];
      [discriminate|].
    rewrite <- app_assoc in Heq. cbn [app] in Heq.
    symmetry in Heq. apply split_at_do in Heq.
    destruct Heq as [(-> & -> & _) | (mid & -> & Hmid)]; [left; auto|].
    right.
    assert (Hrest : exists mid', tr' = mid' ++ EvDo k res :: post
                                 /\ exists front, Waited a ++ EvDo a res' :: mid
                                                  = front ++ mid').
    { destruct Hpost as [-> | (resp & ->)].
      - exists mid. split; [exact Hmid|].
        exists (Waited a ++ [EvDo a res']).
        rewrite <- app_assoc. reflexivity.
      - destruct mid as [|m1 mid]; [discriminate|].
        injection Hmid as <- Hmid. exists mid. split; [exact Hmid|].
        exists (Waited a ++ [EvDo a res'; EvClose resp]).
        rewrite <- app_assoc. reflexivity. }
    destruct Hrest as (mid' & Htr' & front & ->).
    destruct (IH _ Htr') as [(-> & ->) | (Hlt' & pre' & ->)].
    + split; [lia|]. exists front. reflexivity.
    + split; [lia|]. exists (front ++ pre'). rewrite app_assoc. reflexivity.
Qed.

(** With [MaxRetries] an [int], a run that starts with no error recorded
    never leaves the loop with one recorded: it ends at a [return] inside
    the loop, or the loop is not entered at all. *)
Lemma run_exit_kind attempt lastErr x tr :
  run_from attempt lastErr x tr ->
  Int64.min_int <= MaxRetries r <= Int64.max_int ->
  0 <= attempt ->
  lastErr = None \/ attempt < maxAttempts r ->
  (forall e, x <> ExitFailedAfterRetries e) /\
  (x = ExitNoAttempts -> ~ attempt < maxAttempts r /\ tr = []).
Proof.
  intros Hrun Hrange. induction Hrun as
      [a l Hge | a l x tr Hlt Hp | a l l' tr x tr' Hlt Hp Hrun IH];
    intros Hpos Hinv.
  - destruct Hinv as [-> | Hlt]; [|contradiction].
    split; [discriminate | auto].
  - inversion Hp; subst; split; discriminate.
  - pose proof (pass_continue_lt _ _ _ Hp) as Hlt'.
    assert (Hnext : a + 1 < maxAttempts r).
    { unfold maxAttempts in *.
      destruct (Z.eq_dec (MaxRetries r) Int64.max_int) as [Hmax|Hmax].
      - rewrite Hmax, add_1_max_int in Hlt. unfold Int64.min_int in Hlt. lia.
      - rewrite add_1_exact by lia. lia. }
    destruct (IH ltac:(lia) (or_intror Hnext)) as [Hne Hno].
    split; [exact Hne|].
    intros ->. destruct (Hno eq_refl) as [Hge _]. contradiction.
Qed.

(** With fewer retries than an [int] can count, a run in which every
    request fails and no wait is cut short uses every attempt, and ends in
    an error. *)
Lemma run_all_failures attempt lastErr x tr :
  run_from attempt lastErr x tr ->
  Int64.min_int <= MaxRetries r < Int64.max_int ->
  0 <= attempt <= MaxRetries r ->
  (forall k res, In (EvDo k res) tr -> exists e, res = inr e) ->
  (forall k d done, In (EvWait k d done) tr -> done = None) ->
  invocations tr = MaxRetries r + 1 - attempt /\
  exists e, x = ExitNotRetryable e \/ x = ExitRetriesExhausted e.
Proof.
  intros Hrun Hrange.
  assert (Hmax : maxAttempts r = MaxRetries r + 1)
    by (apply add_1_exact; lia).
  induction Hrun as
      [a l Hge | a l x tr Hlt Hp | a l l' tr x tr' Hlt Hp Hrun IH];
    intros Ha Hdo Hwait.
  - lia.
  - inversion Hp as [ctxErr Hpos | err Hr | err Hr Hge | | | resp Hcond]; subst.
    + specialize (Hwait _ _ _ (or_introl eq_refl)). discriminate.
    + rewrite invocations_app, invocations_waited. cbn [invocations].
      split; [|eauto].
      unfold IsRetryableError in Hr.
      destruct (Z.eqb_spec (MaxRetries r) 0); [lia | discriminate].
    + rewrite invocations_app, invocations_waited. cbn [invocations].
      split; [lia | eauto].
    + destruct (Hdo a (inl resp)) as [e He];
        [apply in_or_app; right; left; reflexivity | discriminate].
  - pose proof (pass_continue_lt _ _ _ Hp) as Hlt'.
    destruct IH as [Hinv Hx]; [lia | | |].
    + intros k res Hin. apply (Hdo k res). apply in_or_app. right. exact Hin.
    + intros k d done Hin. apply (Hwait k d done).
      apply in_or_app. right. exact Hin.
    + split; [|exact Hx].
      rewrite invocations_app, Hinv, (pass_invocations _ _ _ Hp). lia.
Qed.

End RunFacts.

(** ** The executor *)

Section ExecutorFacts.

Variable conv_oor : float64 -> Z.
Variables World Request Ctx : Type.
Variable client_Do : Request -> World -> (Response + error) * World.
Variable select_wait : Ctx -> Z -> World -> option error * World.
Variable body_Close : Response -> World -> World.

Local Abbreviation Run :=
  (DoRequestWithRetry conv_oor World Request Ctx client_Do select_wait
     body_Close).

(** A call is a run of the loop from attempt 0 with no error recorded. *)
Lemma DoRequestWithRetry_run ctx req retryOpts w :
  run_from conv_oor (effective_options retryOpts) 0 None
    (exit_of (Run ctx req retryOpts w)) (trace_of (Run ctx req retryOpts w)).
Proof.
  unfold DoRequestWithRetry, exit_of, trace_of.
  pose proof (loop_run_from conv_oor World Request Ctx client_Do select_wait
                body_Close ctx req (effective_options retryOpts) 0 None w) as H.
  destruct (attempt_loop _ _ _ _ _ _ _ _ _ _ _ _ _) as [[x tr] w'].
  exact H.
Qed.

(** A response obtained on attempt [k] is the result of the call, with a
    nil error and nothing done after it, exactly when its status code is
    not retryable or [k] is the last attempt allowed. *)
Lemma response_returned_iff ctx req retryOpts w k resp :
  In (EvDo k (inl resp)) (trace_of (Run ctx req retryOpts w)) ->
  (returned (exit_of (Run ctx req retryOpts w)) = (Some resp, None) /\
   final_event (trace_of (Run ctx req retryOpts w))
     = Some (EvDo k (inl resp)))
  <->
  (IsRetryableError (effective_options retryOpts) None (StatusCode resp) = false
   \/ MaxRetries (effective_options retryOpts) <= k).
Proof.
  intros Hin.
  pose proof (DoRequestWithRetry_run ctx req retryOpts w) as Hrun.
  rewrite <- (run_response_iff _ _ _ _ _ _ _ _ Hrun Hin).
  split; intros [Hx Hfin]; (split; [|exact Hfin]).
  - destruct (exit_of (Run ctx req retryOpts w)); try discriminate.
    injection Hx as ->. reflexivity.
  - rewrite Hx. reflexivity.
Qed.

(** C5.  When the context is done during a backoff wait, the call returns
    the context's error itself, nothing is done after that wait, and the
    requester has been invoked fewer than [MaxRetries + 1] times. *)
Theorem cancellation_ends_the_call ctx req retryOpts w k d ctxErr :
  In (EvWait k d (Some ctxErr)) (trace_of (Run ctx req retryOpts w)) ->
  exit_of (Run ctx req retryOpts w) = ExitCancelled ctxErr /\
  returned (exit_of (Run ctx req retryOpts w)) = (None, Some ctxErr) /\
  final_event (trace_of (Run ctx req retryOpts w))
    = Some (EvWait k d (Some ctxErr)) /\
  invocations (trace_of (Run ctx req retryOpts w))
    < MaxRetries (effective_options retryOpts) + 1.
Proof.
  intros Hin.
  pose proof (DoRequestWithRetry_run ctx req retryOpts w) as Hrun.
  destruct (run_cancelled _ _ _ _ _ _ _ _ _ Hrun ltac:(lia) Hin)
    as (Hx & Hfin & Hinv & Hk).
  rewrite Hx. repeat split; try assumption. lia.
Qed.

(** C6.  Every backoff wait of a call comes before a retry, at a loop
    variable [k >= 1], and lasts [CalculateRetryDelay (k - 1)]; nothing
    comes before the request of attempt 0; and the request of every later
    attempt [k] comes right after the wait of that attempt. *)
Theorem waits_precede_retries ctx req retryOpts w :
  let r := effective_options retryOpts in
  let tr := trace_of (Run ctx req retryOpts w) in
  (forall k d done,
      In (EvWait k d done) tr ->
      1 <= k /\ d = CalculateRetryDelay conv_oor r (k - 1)) /\
  (forall pre res post,
      tr = pre ++ EvDo 0 res :: post -> pre = []) /\
  (forall pre k res post,
      tr = pre ++ EvDo k res :: post ->
      k <> 0 ->
      1 <= k /\
      exists pre',
        pre = pre' ++ [EvWait k (CalculateRetryDelay conv_oor r (k - 1)) None]).
Proof.
  intros r tr.
  pose proof (DoRequestWithRetry_run ctx req retryOpts w) as Hrun.
  fold r in Hrun. fold tr in Hrun.
  assert (Hsub : forall k, 1 <= k < maxAttempts r -> Int64.sub k 1 = k - 1).
  { intros k Hk. apply sub_1_exact.
    pose proof (wrap_range (MaxRetries r + 1)) as Hw.
    unfold maxAttempts, Int64.add in Hk. unfold Int64.min_int in *. lia. }
  split; [|split].
  - intros k d done Hin.
    destruct (run_wait_index _ _ _ _ _ _ _ _ _ Hrun Hin) as (Hk & Hpos & ->).
    rewrite Hsub by lia. split; [lia | reflexivity].
  - intros pre res post Heq.
    destruct (run_do_preceded _ _ _ _ _ _ _ _ _ _ Hrun Heq)
      as [(_ & ->) | (Hlt & _)]; [reflexivity | lia].
  - intros pre k res post Heq Hk.
    assert (Hin : In (EvDo k res) tr).
    { rewrite Heq. apply in_or_app. right. left. reflexivity. }
    pose proof (run_do_index _ _ _ _ _ _ _ _ Hrun Hin) as Hidx.
    destruct (run_do_preceded _ _ _ _ _ _ _ _ _ _ Hrun Heq)
      as [(-> & _) | (Hlt & pre' & ->)]; [contradiction|].
    split; [lia|]. exists pre'.
    unfold waited. destruct (Z.gtb_spec k 0); [|lia].
    rewrite Hsub by lia. reflexivity.
Qed.

(** Breaks up an occurrence in a trace written out as a list. *)
Ltac occurrence :=
  repeat match goal with
  | H : In _ (_ ++ _) |- _ => apply in_app_or in H; destruct H as [H|H]
  | H : In _ (_ :: _) |- _ => destruct H as [H|H]
  | H : In _ [] |- _ => destruct H
  end.

(** The answers and signals in a trace are the ones the collaborators
    gave. *)
Lemma body_events ctx req r attempt lastErr w c tr w' :
  attempt_body conv_oor World Request Ctx client_Do select_wait body_Close
    ctx req r attempt lastErr w = (c, tr, w') ->
  (forall k res, In (EvDo k res) tr ->
     exists w1, fst (client_Do req w1) = res) /\
  (forall k d done, In (EvWait k d done) tr ->
     exists w1, fst (select_wait ctx d w1) = done).
Proof.
  unfold attempt_body, backoff_wait.
  destruct (attempt >? 0).
  - destruct (select_wait ctx _ w) as [done w1] eqn:Hs.
    assert (Hw : forall k d done',
               EvWait attempt
                 (CalculateRetryDelay conv_oor r (Int64.sub attempt 1)) done
               = EvWait k d done' ->
               exists w1, fst (select_wait ctx d w1) = done').
    { intros k d done' Heq. injection Heq as <- <- <-.
      exists w. rewrite Hs. reflexivity. }
    destruct done as [ctxErr|].
    + intros H; injection H as <- <- <-. split; intros; occurrence;
        [discriminate | eauto].
    + destruct (client_Do req w1) as [res w2] eqn:Hd.
      assert (Hres : forall k res', EvDo attempt res = EvDo k res' ->
                       exists w1, fst (client_Do req w1) = res').
      { intros k res' Heq. injection Heq as <- <-.
        exists w1. rewrite Hd. reflexivity. }
      destruct res as [resp|err];
        repeat match goal with
        | |- context [if ?c then _ else _] => destruct c
        end;
        intros H; injection H as <- <- <-; split; intros; occurrence;
        try discriminate; eauto.
  - destruct (client_Do req w) as [res w2] eqn:Hd.
    assert (Hres : forall k res', EvDo attempt res = EvDo k res' ->
                     exists w1, fst (client_Do req w1) = res').
    { intros k res' Heq. injection Heq as <- <-.
      exists w. rewrite Hd. reflexivity. }
    destruct res as [resp|err];
      repeat match goal with
      | |- context [if ?c then _ else _] => destruct c
      end;
      intros H; injection H as <- <- <-; split; intros; occurrence;
      try discriminate; eauto.
Qed.

Lemma DoRequestWithRetry_events ctx req retryOpts w :
  (forall k res, In (EvDo k res) (trace_of (Run ctx req retryOpts w)) ->
     exists w1, fst (client_Do req w1) = res) /\
  (forall k d done, In (EvWait k d done) (trace_of (Run ctx req retryOpts w)) ->
     exists w1, fst (select_wait ctx d w1) = done).
Proof.
  unfold DoRequestWithRetry, trace_of.
  apply (loop_ind conv_oor World Request Ctx client_Do select_wait body_Close
           ctx req (effective_options retryOpts)
           (fun _ _ _ res =>
              (forall k res', In (EvDo k res') (snd (fst res)) ->
                 exists w1, fst (client_Do req w1) = res') /\
              (forall k d done, In (EvWait k d done) (snd (fst res)) ->
                 exists w1, fst (select_wait ctx d w1) = done))).
  - intros. split; intros; contradiction.
  - intros a l w0 x tr w' _ Hb. exact (body_events _ _ _ _ _ _ _ _ _ Hb).
  - intros a l w0 l' tr w' x tr' w'' _ Hb _ [IHd IHw].
    destruct (body_events _ _ _ _ _ _ _ _ _ Hb) as [Hd Hw].
    cbn [fst snd] in *.
    split; intros; 
      match goal with
      | Hin : In _ (_ ++ _) |- _ => apply in_app_or in Hin; destruct Hin
      end; eauto.
Qed.

(** With [0 <= MaxRetries < max_int], a requester that fails on every
    invocation and a context that is never done: the requester is invoked
    exactly [MaxRetries + 1] times and the call returns an error. *)
Lemma always_failing_uses_every_attempt ctx req r w :
  0 <= MaxRetries r < Int64.max_int ->
  (forall w1, exists e, fst (client_Do req w1) = inr e) ->
  (forall d w1, fst (select_wait ctx d w1) = None) ->
  invocations (trace_of (Run ctx req (Some r) w)) = MaxRetries r + 1 /\
  exists e, returned (exit_of (Run ctx req (Some r) w)) = (None, Some e).
Proof.
  intros Hrange Hfail Hquiet.
  pose proof (DoRequestWithRetry_run ctx req (Some r) w) as Hrun.
  destruct (DoRequestWithRetry_events ctx req (Some r) w) as [Hd Hw].
  cbn [effective_options] in Hrun.
  destruct (run_all_failures _ _ _ _ _ _ Hrun) as [Hinv (e & Hx)].
  - unfold Int64.min_int. lia.
  - lia.
  - intros k res Hin. destruct (Hd k res Hin) as [w1 <-]. apply Hfail.
  - intros k d done Hin. destruct (Hw k d done Hin) as [w1 <-]. apply Hquiet.
  - split; [lia|].
    destruct Hx as [-> | ->]; eexists; reflexivity.
Qed.

(** With [min_int <= MaxRetries < 0] the requester is never invoked and
    the call returns the "no attempts made" error. *)
Lemma negative_retries_no_attempt ctx req r w :
  Int64.min_int <= MaxRetries r < 0 ->
  Run ctx req (Some r) w = (ExitNoAttempts, [], w).
Proof.
  intros Hneg. unfold DoRequestWithRetry. cbn [effective_options].
  rewrite loop_exit; [reflexivity|].
  unfold maxAttempts. rewrite add_1_exact; unfold Int64.max_int; lia.
Qed.

(** C1 (the code at [MaxRetries = max_int]).  [MaxRetries + 1] wraps
    around to [min_int], the loop body is never entered, the requester is
    invoked 0 times, not [MaxRetries + 1] times, and the call returns the
    "no attempts made" error. *)
Theorem max_int_retries_no_attempt ctx req w
    (base ceiling : Z) (multiplier : float64) (codes : list Z) :
  let r := {| MaxRetries := Int64.max_int; RetryDelay := base;
              MaxRetryDelay := ceiling; BackoffMultiplier := multiplier;
              RetryableStatusCodes := codes |} in
  0 <= MaxRetries r /\
  Run ctx req (Some r) w = (ExitNoAttempts, [], w) /\
  invocations (trace_of (Run ctx req (Some r) w)) = 0 /\
  invocations (trace_of (Run ctx req (Some r) w)) <> MaxRetries r + 1.
Proof.
  intros r.
  assert (Hrun : Run ctx req (Some r) w = (ExitNoAttempts, [], w)).
  { unfold DoRequestWithRetry. cbn [effective_options].
    rewrite loop_exit; [reflexivity|].
    unfold maxAttempts, r. cbn [MaxRetries]. rewrite add_1_max_int.
    unfold Int64.min_int. lia. }
  rewrite Hrun. cbn [trace_of fst snd invocations MaxRetries r].
  unfold Int64.max_int. repeat split; try lia.
Qed.

(** With [MaxRetries] an [int], the call never returns from the branch
    after the loop that wraps a recorded error; and it returns "no
    attempts made" exactly when [maxAttempts], that is [MaxRetries + 1]
    wrapped around, is not positive, and then nothing was done. *)
Lemma post_loop_error_unreachable ctx req retryOpts w :
  let r := effective_options retryOpts in
  Int64.min_int <= MaxRetries r <= Int64.max_int ->
  (forall e, exit_of (Run ctx req retryOpts w) <> ExitFailedAfterRetries e) /\
  (exit_of (Run ctx req retryOpts w) = ExitNoAttempts <-> maxAttempts r <= 0) /\
  (exit_of (Run ctx req retryOpts w) = ExitNoAttempts ->
   trace_of (Run ctx req retryOpts w) = []).
Proof.
  intros r Hrange.
  pose proof (DoRequestWithRetry_run ctx req retryOpts w) as Hrun.
  destruct (run_exit_kind _ _ _ _ _ _ Hrun Hrange ltac:(lia) (or_introl eq_refl))
    as [Hne Hno].
  split; [exact Hne|]. split; [split|].
  - intros Hx. destruct (Hno Hx) as [Hge _]. fold r in Hge. lia.
  - intros Hle. unfold DoRequestWithRetry, exit_of. fold r.
    rewrite loop_exit by lia. reflexivity.
  - intros Hx. apply (Hno Hx).
Qed.

(** With [MaxRetries] an [int] other than [max_int], the loop is left
    without a [return] exactly when [MaxRetries < 0]. *)
Lemma no_attempts_iff_negative ctx req retryOpts w :
  let r := effective_options retryOpts in
  Int64.min_int <= MaxRetries r < Int64.max_int ->
  exit_of (Run ctx req retryOpts w) = ExitNoAttempts <-> MaxRetries r < 0.
Proof.
  intros r Hrange.
  destruct (post_loop_error_unreachable ctx req retryOpts w ltac:(fold r; lia))
    as (_ & Hiff & _).
  fold r in Hiff. rewrite Hiff. unfold maxAttempts.
  rewrite add_1_exact by lia. lia.
Qed.

(** C9 (the code at [MaxRetries = max_int]).  The loop is left without a
    [return], and the call ends at the last statement of the function,
    although [MaxRetries] is not negative. *)
Theorem loop_left_at_max_int ctx req w
    (base ceiling : Z) (multiplier : float64) (codes : list Z) :
  let r := {| MaxRetries := Int64.max_int; RetryDelay := base;
              MaxRetryDelay := ceiling; BackoffMultiplier := multiplier;
              RetryableStatusCodes := codes |} in
  ~ MaxRetries r < 0 /\
  ~ 0 < maxAttempts r /\
  exit_of (Run ctx req (Some r) w) = after_loop None /\
  returned (exit_of (Run ctx req (Some r) w))
    = (None, Some (Errorf "no attempts made")).
Proof.
  intros r.
  assert (Hmax : maxAttempts r = Int64.min_int) by reflexivity.
  assert (Hx : exit_of (Run ctx req (Some r) w) = ExitNoAttempts).
  { unfold DoRequestWithRetry, exit_of. cbn [effective_options].
    rewrite loop_exit; [reflexivity|].
    rewrite Hmax. unfold Int64.min_int. lia. }
  rewrite Hx, Hmax. cbn [MaxRetries r].
  unfold Int64.max_int, Int64.min_int.
  repeat split; try lia.
Qed.

(** C10.  With a negative [MaxRetries], [IsRetryableError] is still true
    for every non-nil error and for every status code of
    [RetryableStatusCodes]; it is false for all outcomes only when
    [MaxRetries] is zero; and what keeps a call with a negative
    [MaxRetries] from any attempt is the bound of the loop: the requester
    is not invoked and the call returns "no attempts made". *)
Theorem negative_retries_still_retryable ctx req w (r : RetryOptions) :
  MaxRetries r < 0 ->
  (forall e statusCode, IsRetryableError r (Some e) statusCode = true) /\
  (forall statusCode,
      In statusCode (RetryableStatusCodes r) ->
      IsRetryableError r None statusCode = true) /\
  (forall r' : RetryOptions,
      (forall err statusCode, IsRetryableError r' err statusCode = false)
      <-> MaxRetries r' = 0) /\
  (Int64.min_int <= MaxRetries r ->
   Run ctx req (Some r) w = (ExitNoAttempts, [], w) /\
   invocations (trace_of (Run ctx req (Some r) w)) = 0).
Proof.
  intros Hneg. split; [|split; [|split]].
  - intros e statusCode. apply IsRetryableError_transport. lia.
  - intros statusCode Hin. apply IsRetryableError_iff.
    split; [lia | right; exact Hin].
  - intros r'. split.
    + intros Hall. destruct (Z.eq_dec (MaxRetries r') 0) as [H0|H0]; [exact H0|].
      specialize (Hall (Some (Errorf "")) 0).
      rewrite IsRetryableError_transport in Hall by exact H0. discriminate.
    + intros H0 err statusCode. apply IsRetryableError_zero. exact H0.
  - intros Hmin.
    rewrite negative_retries_no_attempt by lia. split; reflexivity.
Qed.

(** C8.  A call with nil options is the call with the default options,
    and the default options are 3 retries, a base delay of 100ms, a
    ceiling of 2s, the multiplier 2.0 and the status codes 408, 429, 500,
    502, 503, 504 in this order. *)
Theorem nil_options_are_default ctx req w :
  Run ctx req None w = Run ctx req (Some DefaultRetryOptions) w /\
  MaxRetries DefaultRetryOptions = 3 /\
  RetryDelay DefaultRetryOptions = 100 * Millisecond /\
  RetryDelay DefaultRetryOptions = 100000000 * Nanosecond /\
  MaxRetryDelay DefaultRetryOptions = 2 * Second /\
  MaxRetryDelay DefaultRetryOptions = 2000000000 * Nanosecond /\
  BackoffMultiplier DefaultRetryOptions = of_int 2 /\
  RetryableStatusCodes DefaultRetryOptions = [408; 429; 500; 502; 503; 504].
Proof. repeat split. Qed.

End ExecutorFacts.

(** ** Scenarios *)

(** A requester that always answers 503, two retries allowed on 503: three
    invocations, and the third 503 is returned with a nil error. *)
Lemma always_unavailable (conv_oor : float64 -> Z)
    (base ceiling : Z) (multiplier : float64) (body : string) :
  let r := {| MaxRetries := 2; RetryDelay := base;
              MaxRetryDelay := ceiling; BackoffMultiplier := multiplier;
              RetryableStatusCodes := [StatusServiceUnavailable] |} in
  let resp := {| StatusCode := 503; Body := body |} in
  let res := DoRequestWithRetry conv_oor Constant.World unit unit
               (Constant.client_Do (inl resp)) Constant.select_wait
               Constant.body_Close tt tt (Some r) tt in
  invocations (trace_of res) = 3 /\
  returned (exit_of res) = (Some resp, None) /\
  trace_of res =
    [EvDo 0 (inl resp); EvClose resp;
     EvWait 1 (CalculateRetryDelay conv_oor r 0) None;
     EvDo 1 (inl resp); EvClose resp;
     EvWait 2 (CalculateRetryDelay conv_oor r 1) None;
     EvDo 2 (inl resp)].
Proof. intros r resp res. repeat split. Qed.

(** A first answer of 400, which the policy does not retry: one
    invocation, and the 400 is returned with a nil error. *)
Lemma bad_request_not_retried (conv_oor : float64 -> Z)
    (base ceiling : Z) (multiplier : float64) (codes : list Z)
    (body : string) rest signals :
  ~ In StatusBadRequest codes ->
  let r := {| MaxRetries := 3; RetryDelay := base;
              MaxRetryDelay := ceiling; BackoffMultiplier := multiplier;
              RetryableStatusCodes := codes |} in
  let resp := {| StatusCode := 400; Body := body |} in
  let res := Script.run conv_oor (Some r)
               (Script.start (inl resp :: rest) signals) in
  invocations (trace_of res) = 1 /\
  returned (exit_of res) = (Some resp, None) /\
  trace_of res = [EvDo 0 (inl resp)].
Proof.
  intros Hnot r resp res.
  assert (Hno : IsRetryableError r None 400 = false).
  { destruct (IsRetryableError r None 400) eqn:E; [|reflexivity].
    apply IsRetryableError_iff in E. destruct E as [_ [Hne|Hin]];
      [congruence | contradiction]. }
  assert (Hres : res = (ExitResponse resp, [EvDo 0 (inl resp)],
                        Script.start rest signals)).
  { unfold res, Script.run, DoRequestWithRetry. cbn [effective_options].
    apply loop_return; [reflexivity|].
    unfold attempt_body, backoff_wait. cbn -[IsRetryableError].
    change (IsRetryableError _ None _) with (IsRetryableError r None 400).
    rewrite Hno. reflexivity. }
  rewrite Hres. repeat split.
Qed.

(** C4.  A response obtained on attempt [k] is the result of the call,
    with a nil error and nothing done after it, exactly when its status
    code is not retryable or [k] is the last attempt allowed
    ([MaxRetries <= k]).  In particular a requester that always answers
    503, with 2 retries on 503, is invoked 3 times and the call returns
    the last 503 with a nil error; and a first answer of 400, not among the
    retryable codes, with 3 retries, is returned with a nil error after 1
    invocation. *)
Theorem response_returned_iff_not_retryable_or_last :
  (forall (conv_oor : float64 -> Z) (World Request Ctx : Type)
          (client_Do : Request -> World -> (Response + error) * World)
          (select_wait : Ctx -> Z -> World -> option error * World)
          (body_Close : Response -> World -> World)
          ctx req retryOpts w k resp,
      let res := DoRequestWithRetry conv_oor World Request Ctx client_Do
                   select_wait body_Close ctx req retryOpts w in
      In (EvDo k (inl resp)) (trace_of res) ->
      (returned (exit_of res) = (Some resp, None) /\
       final_event (trace_of res) = Some (EvDo k (inl resp)))
      <->
      (IsRetryableError (effective_options retryOpts) None (StatusCode resp)
         = false
       \/ MaxRetries (effective_options retryOpts) <= k)) /\
  (forall (conv_oor : float64 -> Z) base ceiling multiplier body,
      let r := {| MaxRetries := 2; RetryDelay := base;
                  MaxRetryDelay := ceiling; BackoffMultiplier := multiplier;
                  RetryableStatusCodes := [503] |} in
      let resp := {| StatusCode := 503; Body := body |} in
      let res := DoRequestWithRetry conv_oor Constant.World unit unit
                   (Constant.client_Do (inl resp)) Constant.select_wait
                   Constant.body_Close tt tt (Some r) tt in
      invocations (trace_of res) = 3 /\
      returned (exit_of res) = (Some resp, None)) /\
  (forall (conv_oor : float64 -> Z) base ceiling multiplier codes body
          rest signals,
      ~ In 400 codes ->
      let r := {| MaxRetries := 3; RetryDelay := base;
                  MaxRetryDelay := ceiling; BackoffMultiplier := multiplier;
                  RetryableStatusCodes := codes |} in
      let resp := {| StatusCode := 400; Body := body |} in
      let res := Script.run conv_oor (Some r)
                   (Script.start (inl resp :: rest) signals) in
      invocations (trace_of res) = 1 /\
      returned (exit_of res) = (Some resp, None)).
Proof.
  split; [|split].
  - intros. apply response_returned_iff. assumption.
  - intros. 
    destruct (always_unavailable conv_oor base ceiling multiplier body)
      as (H1 & H2 & _). split; assumption.
  - intros conv_oor base ceiling multiplier codes body rest signals Hnot.
    destruct (bad_request_not_retried conv_oor base ceiling multiplier codes
                body rest signals Hnot) as (H1 & H2 & _).
    split; assumption.
Qed.

(** C7.  Answers 503, 503, 200, retries on 503 only, [MaxRetries = 3]:
    the requester is invoked 3 times, the two 503 responses are closed and
    dropped, and the 200 response is returned with a nil error. *)
Theorem two_unavailable_then_ok (conv_oor : float64 -> Z)
    (base ceiling : Z) (multiplier : float64) (b1 b2 b3 : string)
    rest signals :
  let r := {| MaxRetries := 3; RetryDelay := base;
              MaxRetryDelay := ceiling; BackoffMultiplier := multiplier;
              RetryableStatusCodes := [503] |} in
  let r1 := {| StatusCode := 503; Body := b1 |} in
  let r2 := {| StatusCode := 503; Body := b2 |} in
  let r3 := {| StatusCode := 200; Body := b3 |} in
  let res := Script.run conv_oor (Some r)
               (Script.start (inl r1 :: inl r2 :: inl r3 :: rest)
                             (None :: None :: signals)) in
  invocations (trace_of res) = 3 /\
  returned (exit_of res) = (Some r3, None) /\
  trace_of res =
    [EvDo 0 (inl r1); EvClose r1;
     EvWait 1 (CalculateRetryDelay conv_oor r 0) None;
     EvDo 1 (inl r2); EvClose r2;
     EvWait 2 (CalculateRetryDelay conv_oor r 1) None;
     EvDo 2 (inl r3)] /\
  Script.closed (world_of res) = [r2; r1] /\
  Script.answers (world_of res) = rest.
Proof. intros r r1 r2 r3 res. repeat split. Qed.

(** ** The theorems at work *)


(** Three 503 answers under two retries: the third is returned. *)
Lemma response_returned_iff_not_retryable_or_last_witness :
  let res := Script.run conv_oor_amd64 (Some (Script.retry_on_503 2))
               (Script.start [inl Script.unavailable; inl Script.unavailable;
                              inl Script.unavailable] []) in
  (In (EvDo 2 (inl Script.unavailable)) (trace_of res) /\
   ((returned (exit_of res) = (Some Script.unavailable, None) /\
     final_event (trace_of res) = Some (EvDo 2 (inl Script.unavailable)))
    <->
    (IsRetryableError (Script.retry_on_503 2) None 503 = false \/ 2 <= 2))) /\
  (~ In 400 [503] /\
   invocations
     (trace_of (Script.run conv_oor_amd64 (Some (Script.retry_on_503 3))
                  (Script.start [inl Script.bad_request] []))) = 1).
Proof.
  destruct response_returned_iff_not_retryable_or_last as (Hgen & _ & Hbad).
  split.
  - assert (Hin : In (EvDo 2 (inl Script.unavailable))
                    (trace_of (Script.run conv_oor_amd64
                                 (Some (Script.retry_on_503 2))
                                 (Script.start [inl Script.unavailable;
                                                inl Script.unavailable;
                                                inl Script.unavailable] [])))).
    { vm_compute. tauto. }
    split; [exact Hin|].
    exact (Hgen conv_oor_amd64 Script.World unit unit Script.client_Do
             Script.select_wait Script.body_Close tt tt
             (Some (Script.retry_on_503 2)) _ 2 Script.unavailable Hin).
  - assert (Hnot : ~ In 400 [503]).
    { intros [H|[]]. discriminate H. }
    split; [exact Hnot|].
    exact (proj1 (Hbad conv_oor_amd64 (100 * Millisecond) (2 * Second)
                    Float64.two [503] "bad request"%string [] [] Hnot)).
Defined.

(** The context is cancelled during the second backoff wait of a call
    with five retries: two invocations, and [context.Canceled] comes
    back. *)
Lemma cancellation_ends_the_call_witness :
  let res := Script.run conv_oor_amd64 (Some (Script.retry_on_503 5))
               (Script.start [inl Script.unavailable; inl Script.unavailable;
                              inl Script.ok]
                             [None; Some Script.Canceled]) in
  In (EvWait 2 (400 * Millisecond) (Some Script.Canceled)) (trace_of res) /\
  (exit_of res = ExitCancelled Script.Canceled /\
   returned (exit_of res) = (None, Some Script.Canceled) /\
   final_event (trace_of res)
     = Some (EvWait 2 (400 * Millisecond) (Some Script.Canceled)) /\
   invocations (trace_of res) < 5 + 1).
Proof.
  cbv zeta.
  assert (Hin : In (EvWait 2 (400 * Millisecond) (Some Script.Canceled))
                  (trace_of (Script.run conv_oor_amd64
                               (Some (Script.retry_on_503 5))
                               (Script.start [inl Script.unavailable;
                                              inl Script.unavailable;
                                              inl Script.ok]
                                             [None; Some Script.Canceled])))).
  { vm_compute. tauto. }
  split; [exact Hin|].
  exact (cancellation_ends_the_call conv_oor_amd64 Script.World unit unit
           Script.client_Do Script.select_wait Script.body_Close tt tt
           (Some (Script.retry_on_503 5)) _ 2 (400 * Millisecond)
           Script.Canceled Hin).
Defined.

(** 503, 503, 200 under the default options: a wait of 200ms before the
    second attempt and of 400ms before the third, none before the
    first. *)
Lemma waits_precede_retries_witness :
  let tr := trace_of (Script.run conv_oor_amd64 None
                        (Script.start [inl Script.unavailable;
                                       inl Script.unavailable;
                                       inl Script.ok] [])) in
  (In (EvWait 2 (400 * Millisecond) None) tr /\
   1 <= 2 /\
   400 * Millisecond = CalculateRetryDelay conv_oor_amd64 DefaultRetryOptions (2 - 1)) /\
  (tr = [] ++ EvDo 0 (inl Script.unavailable)
             :: [EvClose Script.unavailable;
                 EvWait 1 (200 * Millisecond) None;
                 EvDo 1 (inl Script.unavailable);
                 EvClose Script.unavailable;
                 EvWait 2 (400 * Millisecond) None;
                 EvDo 2 (inl Script.ok)] /\
   [] = @nil Event) /\
  (1 <> 0 /\ 1 <= 1 /\
   exists pre',
     [EvDo 0 (inl Script.unavailable); EvClose Script.unavailable;
      EvWait 1 (200 * Millisecond) None]
     = pre' ++ [EvWait 1 (CalculateRetryDelay conv_oor_amd64
                            DefaultRetryOptions (1 - 1)) None]).
Proof.
  cbv zeta.
  destruct (waits_precede_retries conv_oor_amd64 Script.World unit unit
              Script.client_Do Script.select_wait Script.body_Close tt tt
              None (Script.start [inl Script.unavailable;
                                  inl Script.unavailable;
                                  inl Script.ok] []))
    as (Hwait & Hfirst & Hlater).
  split; [|split].
  - assert (Hin : In (EvWait 2 (400 * Millisecond) None)
                    (trace_of (Script.run conv_oor_amd64 None
                                 (Script.start [inl Script.unavailable;
                                                inl Script.unavailable;
                                                inl Script.ok] [])))).
    { vm_compute. tauto. }
    split; [exact Hin|]. exact (Hwait 2 (400 * Millisecond) None Hin).
  - assert (Heq : trace_of (Script.run conv_oor_amd64 None
                              (Script.start [inl Script.unavailable;
                                             inl Script.unavailable;
                                             inl Script.ok] []))
                  = [] ++ EvDo 0 (inl Script.unavailable)
                       :: [EvClose Script.unavailable;
                           EvWait 1 (200 * Millisecond) None;
                           EvDo 1 (inl Script.unavailable);
                           EvClose Script.unavailable;
                           EvWait 2 (400 * Millisecond) None;
                           EvDo 2 (inl Script.ok)]).
    { reflexivity. }
    split; [exact Heq|]. symmetry. exact (Hfirst _ _ _ Heq).
  - assert (Hne : 1 <> 0) by discriminate.
    split; [exact Hne|].
    exact (Hlater [EvDo 0 (inl Script.unavailable);
                   EvClose Script.unavailable;
                   EvWait 1 (200 * Millisecond) None]
                  1 (inl Script.unavailable)
                  [EvClose Script.unavailable;
                   EvWait 2 (400 * Millisecond) None;
                   EvDo 2 (inl Script.ok)]
                  eq_refl Hne).
Defined.

(** [MaxRetries = -1]: errors and 503 are retryable, and no attempt is
    made. *)
Lemma negative_retries_still_retryable_witness :
  MaxRetries (Script.retry_on_503 (-1)) < 0 /\
  IsRetryableError (Script.retry_on_503 (-1))
    (Some Script.connection_refused) 0 = true /\
  IsRetryableError (Script.retry_on_503 (-1)) None 503 = true /\
  Script.run conv_oor_amd64 (Some (Script.retry_on_503 (-1)))
    (Script.start [inl Script.ok] [])
  = (ExitNoAttempts, [], Script.start [inl Script.ok] []).
Proof.
  assert (Hneg : MaxRetries (Script.retry_on_503 (-1)) < 0) by reflexivity.
  destruct (negative_retries_still_retryable conv_oor_amd64 Script.World
              unit unit Script.client_Do Script.select_wait Script.body_Close
              tt tt (Script.start [inl Script.ok] [])
              (Script.retry_on_503 (-1)) Hneg)
    as (Herr & Hcode & _ & Hrun).
  split; [exact Hneg|].
  split; [apply Herr|]. split; [apply Hcode; left; reflexivity|].
  apply Hrun. discriminate.
Defined.

(** * Further properties of the executor *)

(** ** What a trace holds *)

Lemma responses_app tr1 tr2 :
  responses (tr1 ++ tr2) = responses tr1 ++ responses tr2.
Proof.
  induction tr1 as [|[k d done|k [resp|err]|resp] tr1 IH];
    cbn [responses app]; rewrite ?IH; reflexivity.
Qed.

Lemma closes_app tr1 tr2 : closes (tr1 ++ tr2) = closes tr1 ++ closes tr2.
Proof.
  induction tr1 as [|[k d done|k res|resp] tr1 IH];
    cbn [closes app]; rewrite ?IH; reflexivity.
Qed.

Lemma waits_app tr1 tr2 : waits (tr1 ++ tr2) = waits tr1 ++ waits tr2.
Proof.
  induction tr1 as [|[k d done|k res|resp] tr1 IH];
    cbn [waits app]; rewrite ?IH; reflexivity.
Qed.

Lemma total_wait_app tr1 tr2 :
  total_wait (tr1 ++ tr2) = total_wait tr1 + total_wait tr2.
Proof.
  unfold total_wait. rewrite waits_app.
  induction (waits tr1) as [|d ds IH]; cbn [fold_right app]; lia.
Qed.

(** A sum of delays, none above [ceiling], is at most their number times
    [ceiling]. *)
Lemma total_wait_le tr ceiling :
  (forall d, In d (waits tr) -> d <= ceiling) ->
  total_wait tr <= Z.of_nat (List.length (waits tr)) * ceiling.
Proof.
  unfold total_wait. induction (waits tr) as [|d ds IH]; intros Hle.
  - cbn. lia.
  - cbn [fold_right List.length]. 
    pose proof (Hle d (or_introl eq_refl)).
    specialize (IH (fun d' Hin => Hle d' (or_intror Hin))). lia.
Qed.

Lemma CalculateRetryDelay_le conv_oor (r : RetryOptions) attempt :
  CalculateRetryDelay conv_oor r attempt <= MaxRetryDelay r.
Proof.
  unfold CalculateRetryDelay. cbv zeta.
  destruct (Z.gtb_spec (raw_delay conv_oor r attempt) (MaxRetryDelay r)); lia.
Qed.

(** [maxAttempts] is [MaxRetries + 1], or [min_int] when that wraps. *)
Lemma maxAttempts_le (r : RetryOptions) :
  Int64.min_int <= MaxRetries r <= Int64.max_int ->
  maxAttempts r <= MaxRetries r + 1.
Proof.
  intros Hrange. unfold maxAttempts.
  destruct (Z.eq_dec (MaxRetries r) Int64.max_int) as [Hmax|Hmax].
  - rewrite Hmax, add_1_max_int. unfold Int64.min_int, Int64.max_int. lia.
  - rewrite add_1_exact by lia. lia.
Qed.

Section BudgetFacts.

Variable conv_oor : float64 -> Z.
Variable r : RetryOptions.

Local Abbreviation delay := (CalculateRetryDelay conv_oor r).
Local Abbreviation Waited := (waited conv_oor r).
Local Abbreviation pass := (pass conv_oor r).
Local Abbreviation run_from := (run_from conv_oor r).

Lemma responses_waited attempt : responses (Waited attempt) = [].
Proof. unfold waited. destruct (attempt >? 0); reflexivity. Qed.

Lemma closes_waited attempt : closes (Waited attempt) = [].
Proof. unfold waited. destruct (attempt >? 0); reflexivity. Qed.

(** A pass waits once, before its request, unless it is the first. *)
Lemma pass_waits attempt c tr :
  pass attempt c tr ->
  waits tr = if attempt >? 0 then [delay (Int64.sub attempt 1)] else [].
Proof.
  intros Hp. destruct Hp;
    try (rewrite waits_app, app_nil_r || rewrite waits_app; cbn [waits];
         rewrite ?app_nil_r; unfold waited;
         destruct (attempt >? 0); reflexivity).
  cbn [waits]. destruct (Z.gtb_spec attempt 0); [reflexivity | lia].
Qed.

(** The responses of a pass are closed, but for the one it returns. *)
Lemma pass_responses attempt c tr :
  pass attempt c tr ->
  responses tr =
    closes tr ++ match c with
                 | Return (ExitResponse resp) => [resp]
                 | _ => []
                 end.
Proof.
  intros Hp. destruct Hp;
    rewrite ?responses_app, ?closes_app, ?responses_waited, ?closes_waited;
    reflexivity.
Qed.

Lemma run_responses attempt lastErr x tr :
  run_from attempt lastErr x tr ->
  responses tr =
    closes tr ++ match x with
                 | ExitResponse resp => [resp]
                 | _ => []
                 end.
Proof.
  intros Hrun. induction Hrun as
      [a l Hge | a l x tr Hlt Hp | a l l' tr x tr' Hlt Hp Hrun IH].
  - destruct l; reflexivity.
  - apply (pass_responses _ _ _ Hp).
  - rewrite responses_app, closes_app, IH, (pass_responses _ _ _ Hp).
    rewrite app_nil_r, app_assoc. reflexivity.
Qed.

(** From [attempt] on, a run has at most [maxAttempts - attempt] requests,
    and a wait only before the passes after the first. *)
Lemma run_budget attempt lastErr x tr :
  run_from attempt lastErr x tr ->
  0 <= attempt ->
  0 <= invocations tr <= Z.max 0 (maxAttempts r - attempt) /\
  Z.of_nat (List.length (waits tr)) <= Z.max 0 (maxAttempts r - Z.max attempt 1) /\
  (forall d, In d (waits tr) -> d <= MaxRetryDelay r).
Proof.
  intros Hrun. induction Hrun as
      [a l Hge | a l x tr Hlt Hp | a l l' tr x tr' Hlt Hp Hrun IH];
    intros Hpos.
  - cbn. repeat split; try lia; intros d [].
  - rewrite (pass_invocations _ _ _ _ _ Hp), (pass_waits _ _ _ Hp).
    split; [destruct x; lia|].
    destruct (Z.gtb_spec a 0); cbn [List.length In]; (split; [lia|]).
    + intros d [<-|[]]. apply CalculateRetryDelay_le.
    + intros d [].
  - destruct (IH ltac:(lia)) as (Hinv & Hlen & Hle).
    rewrite invocations_app, waits_app, length_app, (pass_invocations _ _ _ _ _ Hp).
    rewrite (pass_waits _ _ _ Hp).
    split; [lia|].
    destruct (Z.gtb_spec a 0); cbn [List.length In app]; (split; [lia|]).
    + intros d [<-|Hin]; [apply CalculateRetryDelay_le | auto].
    + exact Hle.
Qed.

End BudgetFacts.

Section OutcomeFacts.

Variable conv_oor : float64 -> Z.
Variable r : RetryOptions.

Local Abbreviation pass := (pass conv_oor r).
Local Abbreviation run_from := (run_from conv_oor r).

(** A run that enters the loop ends at a [return] of the loop, and what
    it returns is what its last event brought. *)
Lemma run_exit_shape attempt lastErr x tr :
  run_from attempt lastErr x tr ->
  Int64.min_int <= MaxRetries r <= Int64.max_int ->
  0 <= attempt < maxAttempts r ->
  match x with
  | ExitCancelled ctxErr =>
      exists k d, final_event tr = Some (EvWait k d (Some ctxErr))
  | ExitNotRetryable err =>
      MaxRetries r = 0 /\ exists k, final_event tr = Some (EvDo k (inr err))
  | ExitRetriesExhausted err =>
      MaxRetries r <> 0 /\
      final_event tr = Some (EvDo (MaxRetries r) (inr err))
  | ExitResponse resp => exists k, final_event tr = Some (EvDo k (inl resp))
  | ExitFailedAfterRetries _ => False
  | ExitNoAttempts => False
  end.
Proof.
  intros Hrun Hrange. pose proof (maxAttempts_le r Hrange) as Hmax.
  induction Hrun as
      [a l Hge | a l x tr Hlt Hp | a l l' tr x tr' Hlt Hp Hrun IH];
    intros Ha.
  - lia.
  - inversion Hp as [ctxErr Hpos | err Hr | err Hr Hge | | | resp Hcond]; subst.
    + eexists; eexists; reflexivity.
    + split; [|eexists; apply final_event_last].
      unfold IsRetryableError in Hr.
      destruct (Z.eqb_spec (MaxRetries r) 0); [assumption | discriminate].
    + assert (a = MaxRetries r) as -> by lia.
      split; [|apply final_event_last].
      intros H0. rewrite IsRetryableError_zero in Hr by exact H0. discriminate.
    + eexists; apply final_event_last.
  - pose proof (pass_continue_lt _ _ _ _ _ Hp) as Hlt'.
    assert (Hnext : a + 1 < maxAttempts r).
    { unfold maxAttempts in *.
      destruct (Z.eq_dec (MaxRetries r) Int64.max_int) as [Hm|Hm].
      - rewrite Hm, add_1_max_int in Hlt. unfold Int64.min_int in Hlt. lia.
      - rewrite add_1_exact by lia. lia. }
    specialize (IH ltac:(lia)).
    assert (Hne : tr' <> []).
    { intros ->. inversion Hrun as [? ? Hge | ? ? ? ? _ Hp' | ? ? ? ? ? ? _ Hp'];
        subst; try contradiction.
      - exact (pass_nonempty _ _ _ _ _ Hp' eq_refl).
      - match goal with
        | Heq : _ ++ _ = [] |- _ =>
            apply app_eq_nil in Heq; destruct Heq as [Heq _];
            exact (pass_nonempty _ _ _ _ _ Hp' Heq)
        end. }
    rewrite final_event_app by exact Hne. exact IH.
Qed.

(** With fewer retries than an [int] can count, a run in which every
    answer is retryable and no wait is cut short uses every attempt, and
    returns the answer of the last one. *)
Lemma run_retryable_answers attempt lastErr x tr :
  run_from attempt lastErr x tr ->
  Int64.min_int <= MaxRetries r < Int64.max_int ->
  0 <= attempt <= MaxRetries r ->
  (forall k res, In (EvDo k res) tr -> retryable_answer r res = true) ->
  (forall k d done, In (EvWait k d done) tr -> done = None) ->
  invocations tr = MaxRetries r + 1 - attempt /\
  Z.of_nat (List.length (waits tr)) = MaxRetries r + 1 - Z.max attempt 1 /\
  exists res,
    final_event tr = Some (EvDo (MaxRetries r) res) /\
    x = match res with
        | inl resp => ExitResponse resp
        | inr err => ExitRetriesExhausted err
        end.
Proof.
  intros Hrun Hrange.
  assert (Hmax : maxAttempts r = MaxRetries r + 1)
    by (apply add_1_exact; lia).
  induction Hrun as
      [a l Hge | a l x tr Hlt Hp | a l l' tr x tr' Hlt Hp Hrun IH];
    intros Ha Hdo Hwait.
  - lia.
  - rewrite (pass_waits _ _ _ _ _ Hp), (pass_invocations _ _ _ _ _ Hp).
    inversion Hp as [ctxErr Hpos | err Hr | err Hr Hge | | | resp Hcond]; subst.
    + specialize (Hwait _ _ _ (or_introl eq_refl)). discriminate.
    + specialize (Hdo a (inr err)
                    ltac:(apply in_or_app; right; left; reflexivity)).
      cbn [retryable_answer] in Hdo. congruence.
    + assert (a = MaxRetries r) as -> by lia.
      split; [lia|]. split.
      * destruct (Z.gtb_spec (MaxRetries r) 0); cbn [List.length]; lia.
      * exists (inr err). split; [apply final_event_last | reflexivity].
    + specialize (Hdo a (inl resp)
                    ltac:(apply in_or_app; right; left; reflexivity)).
      cbn [retryable_answer] in Hdo.
      destruct Hcond as [Hno | Hge]; [congruence|].
      assert (a = MaxRetries r) as -> by lia.
      split; [lia|]. split.
      * destruct (Z.gtb_spec (MaxRetries r) 0); cbn [List.length]; lia.
      * exists (inl resp). split; [apply final_event_last | reflexivity].
  - pose proof (pass_continue_lt _ _ _ _ _ Hp) as Hlt'.
    destruct IH as (Hinv & Hlen & res & Hfin & Hx); [lia | | |].
    + intros k res Hin. apply (Hdo k res). apply in_or_app. right. exact Hin.
    + intros k d done Hin. apply (Hwait k d done).
      apply in_or_app. right. exact Hin.
    + rewrite invocations_app, waits_app, length_app, Hinv.
      rewrite (pass_invocations _ _ _ _ _ Hp), (pass_waits _ _ _ _ _ Hp).
      split; [lia|]. split.
      * destruct (Z.gtb_spec a 0); cbn [List.length]; lia.
      * exists res. split; [|exact Hx].
        rewrite final_event_app; [exact Hfin|].
        intros ->. discriminate.
Qed.

End OutcomeFacts.

Section ExecutorBudget.

Variable conv_oor : float64 -> Z.
Variables World Request Ctx : Type.
Variable client_Do : Request -> World -> (Response + error) * World.
Variable select_wait : Ctx -> Z -> World -> option error * World.
Variable body_Close : Response -> World -> World.

Local Abbreviation Run :=
  (DoRequestWithRetry conv_oor World Request Ctx client_Do select_wait
     body_Close).

(** X1.  With [MaxRetries] an [int], whatever the requester answers and
    whenever the context is done, a call invokes the requester at most
    [MaxRetries + 1] times and waits at most [MaxRetries] times; with a
    negative [MaxRetries] it does neither. *)
Theorem attempts_within_budget ctx req retryOpts w :
  let r := effective_options retryOpts in
  let tr := trace_of (Run ctx req retryOpts w) in
  Int64.min_int <= MaxRetries r <= Int64.max_int ->
  0 <= invocations tr <= Z.max 0 (MaxRetries r + 1) /\
  Z.of_nat (List.length (waits tr)) <= Z.max 0 (MaxRetries r).
Proof.
  intros r tr Hrange.
  pose proof (DoRequestWithRetry_run conv_oor World Request Ctx client_Do
                select_wait body_Close ctx req retryOpts w) as Hrun.
  destruct (run_budget _ _ _ _ _ _ Hrun ltac:(lia)) as (Hinv & Hlen & _).
  pose proof (maxAttempts_le r Hrange). fold r in Hinv, Hlen. fold tr in Hinv, Hlen.
  lia.
Qed.

(** X2.  With [MaxRetries] an [int] and a ceiling [MaxRetryDelay] that is
    not negative, the delays of all the backoff waits of a call add up to
    at most [MaxRetries] times [MaxRetryDelay]. *)
Theorem backoff_time_bounded ctx req retryOpts w :
  let r := effective_options retryOpts in
  let tr := trace_of (Run ctx req retryOpts w) in
  Int64.min_int <= MaxRetries r <= Int64.max_int ->
  0 <= MaxRetryDelay r ->
  total_wait tr <= Z.max 0 (MaxRetries r) * MaxRetryDelay r.
Proof.
  intros r tr Hrange Hceil.
  pose proof (DoRequestWithRetry_run conv_oor World Request Ctx client_Do
                select_wait body_Close ctx req retryOpts w) as Hrun.
  destruct (run_budget _ _ _ _ _ _ Hrun ltac:(lia)) as (_ & Hlen & Hle).
  pose proof (maxAttempts_le r Hrange).
  fold r in Hlen, Hle. fold tr in Hlen, Hle.
  pose proof (total_wait_le tr (MaxRetryDelay r) Hle) as Hsum.
  assert (Z.of_nat (List.length (waits tr)) <= Z.max 0 (MaxRetries r)) by lia.
  nia.
Qed.

(** X3.  The responses a call obtains are, in order, those whose body it
    closes, followed by the response it returns, if it returns one: no
    body is left open but the caller's, and the caller's is not closed. *)
Theorem every_response_closed_or_returned ctx req retryOpts w :
  responses (trace_of (Run ctx req retryOpts w)) =
    closes (trace_of (Run ctx req retryOpts w))
    ++ match fst (returned (exit_of (Run ctx req retryOpts w))) with
       | Some resp => [resp]
       | None => []
       end.
Proof.
  pose proof (DoRequestWithRetry_run conv_oor World Request Ctx client_Do
                select_wait body_Close ctx req retryOpts w) as Hrun.
  rewrite (run_responses _ _ _ _ _ _ Hrun).
  destruct (exit_of (Run ctx req retryOpts w)); reflexivity.
Qed.

(** X4.  With [MaxRetries = 0] a call is one invocation of the requester
    and nothing else: no wait, no body closed; a response is returned
    with a nil error, an error is returned wrapped as "failed to execute
    request". *)
Theorem zero_retries_single_attempt ctx req r w :
  MaxRetries r = 0 ->
  Run ctx req (Some r) w =
    (match fst (client_Do req w) with
     | inl resp => ExitResponse resp
     | inr err => ExitNotRetryable err
     end,
     [EvDo 0 (fst (client_Do req w))],
     snd (client_Do req w)).
Proof.
  intros H0. unfold DoRequestWithRetry. cbn [effective_options].
  apply loop_return.
  - unfold maxAttempts. rewrite H0. reflexivity.
  - unfold attempt_body, backoff_wait. cbn [Z.gtb Z.compare].
    destruct (client_Do req w) as [[resp|err] w'] eqn:Hd; cbn [fst snd].
    + rewrite IsRetryableError_zero by exact H0. reflexivity.
    + rewrite IsRetryableError_zero by exact H0. reflexivity.
Qed.

(** X5.  With [MaxRetries] an [int], what a call returns is what its last
    event brought: the context's error of the wait that was cut short;
    the requester's error of the last request, wrapped as "failed to
    execute request" only when [MaxRetries = 0] and as "failed to execute
    request after retries" only on attempt [MaxRetries <> 0]; the
    response of the last request; or "no attempts made" when nothing was
    done.  The error recorded for a retried status is never returned. *)
Theorem result_comes_from_last_event ctx req retryOpts w :
  let r := effective_options retryOpts in
  let tr := trace_of (Run ctx req retryOpts w) in
  Int64.min_int <= MaxRetries r <= Int64.max_int ->
  match exit_of (Run ctx req retryOpts w) with
  | ExitCancelled ctxErr =>
      exists k d, final_event tr = Some (EvWait k d (Some ctxErr))
  | ExitNotRetryable err =>
      MaxRetries r = 0 /\ exists k, final_event tr = Some (EvDo k (inr err))
  | ExitRetriesExhausted err =>
      MaxRetries r <> 0 /\
      final_event tr = Some (EvDo (MaxRetries r) (inr err))
  | ExitResponse resp => exists k, final_event tr = Some (EvDo k (inl resp))
  | ExitFailedAfterRetries _ => False
  | ExitNoAttempts => tr = []
  end.
Proof.
  intros r tr Hrange.
  pose proof (DoRequestWithRetry_run conv_oor World Request Ctx client_Do
                select_wait body_Close ctx req retryOpts w) as Hrun.
  fold r in Hrun. fold tr in Hrun.
  destruct (Z_lt_dec 0 (maxAttempts r)) as [Hlt|Hge].
  - pose proof (run_exit_shape _ _ _ _ _ _ Hrun Hrange ltac:(lia)) as Hs.
    destruct (exit_of (Run ctx req retryOpts w)); try exact Hs. destruct Hs.
  - unfold tr, DoRequestWithRetry, exit_of, trace_of. fold r.
    rewrite loop_exit by exact Hge. reflexivity.
Qed.

(** X6.  With [0 <= MaxRetries < max_int], a requester all of whose
    answers are retryable and a context that is never done: the
    requester is invoked exactly [MaxRetries + 1] times, with
    [MaxRetries] waits, and the call returns the answer of the last
    attempt: a response with a nil error, whatever its status, or the
    error wrapped as "failed to execute request after retries". *)
Theorem retryable_answers_use_every_attempt ctx req r w :
  0 <= MaxRetries r < Int64.max_int ->
  (forall w1, retryable_answer r (fst (client_Do req w1)) = true) ->
  (forall d w1, fst (select_wait ctx d w1) = None) ->
  let res := Run ctx req (Some r) w in
  invocations (trace_of res) = MaxRetries r + 1 /\
  Z.of_nat (List.length (waits (trace_of res))) = MaxRetries r /\
  exists answer,
    final_event (trace_of res) = Some (EvDo (MaxRetries r) answer) /\
    returned (exit_of res) =
      match answer with
      | inl resp => (Some resp, None)
      | inr err =>
          (None,
           Some (Errorf_w "failed to execute request after retries: %w" err))
      end.
Proof.
  intros Hrange Hretry Hquiet res.
  pose proof (DoRequestWithRetry_run conv_oor World Request Ctx client_Do
                select_wait body_Close ctx req (Some r) w) as Hrun.
  destruct (DoRequestWithRetry_events conv_oor World Request Ctx client_Do
              select_wait body_Close ctx req (Some r) w) as [Hd Hw].
  cbn [effective_options] in Hrun. fold res in Hrun, Hd, Hw.
  destruct (run_retryable_answers _ _ _ _ _ _ Hrun)
    as (Hinv & Hlen & answer & Hfin & Hx).
  - unfold Int64.min_int. lia.
  - lia.
  - intros k a Hin. destruct (Hd k a Hin) as [w1 <-]. apply Hretry.
  - intros k d done Hin. destruct (Hw k d done Hin) as [w1 <-]. apply Hquiet.
  - split; [lia|]. split; [lia|].
    exists answer. split; [exact Hfin|].
    rewrite Hx. destruct answer; reflexivity.
Qed.

End ExecutorBudget.

(** * The client *)

(** ** Headers *)

Lemma lookup_remove_other key key' h :
  key' <> key ->
  Http.lookup key' (Http.remove key h) = Http.lookup key' h.
Proof.
  intros Hne. induction h as [|[k vs] h IH]; [reflexivity|].
  cbn [Http.remove Http.lookup].
  destruct (String.eqb_spec k key) as [Heq|Hne'].
  - destruct (String.eqb_spec k key') as [Heq'|_]; [congruence | exact IH].
  - cbn [Http.lookup]. destruct (String.eqb_spec k key'); [reflexivity|].
    exact IH.
Qed.

Lemma Header_Get_Set h key value :
  Http.Header_Get (Http.Header_Set h key value) key = value.
Proof.
  unfold Http.Header_Get, Http.Header_Set. cbn [Http.lookup].
  rewrite String.eqb_refl. reflexivity.
Qed.

Lemma lookup_Set_other h key value key' :
  key' <> key ->
  Http.lookup key' (Http.Header_Set h key value) = Http.lookup key' h.
Proof.
  intros Hne. unfold Http.Header_Set. cbn [Http.lookup].
  destruct (String.eqb_spec key key'); [congruence|].
  apply lookup_remove_other. exact Hne.
Qed.

(** ** Building a client *)

Section ClientFacts.

Variables RoundTripper CertPool Certificate : Type.
Variable os_ReadFile : string -> string + error.
Variable NewCertPool : CertPool.
Variable AppendCertsFromPEM : CertPool -> string -> CertPool * bool.
Variable LoadX509KeyPair : string -> string -> Certificate + error.

Local Abbreviation New :=
  (NewClient RoundTripper CertPool Certificate os_ReadFile NewCertPool
     AppendCertsFromPEM LoadX509KeyPair).

(** Runs [NewClient] through every branch it can take. *)
Ltac new_client_cases o :=
  unfold NewClient, Validate, configure_tls, load_ca, load_client_cert;
  destruct (String.eqb_spec (BaseURL o) "") as [Hbase|Hbase];
  destruct (String.eqb_spec (TLSCACertFile o) "") as [Hca|Hca];
  destruct (String.eqb_spec (TLSClientCert o) "") as [Hcert|Hcert];
  destruct (String.eqb_spec (TLSClientKey o) "") as [Hkey|Hkey];
  destruct (InsecureSkipVerify o) eqn:Hskip;
  cbn [negb orb andb];
  try (destruct (os_ReadFile (TLSCACertFile o)) as [pem|readErr] eqn:Hread;
       [destruct (AppendCertsFromPEM NewCertPool pem) as [pool parsed] eqn:Hpem;
        destruct parsed|]);
  cbn [negb];
  try destruct (LoadX509KeyPair (TLSClientCert o) (TLSClientKey o))
    as [cert|loadErr] eqn:Hload;
  cbn [TLS_InsecureSkipVerify TLS_ServerName TLS_RootCAs TLS_Certificates].

(** X7.  A client needs a base URL: [NewClient] on nil options, which
    stand for the default ones, fails with "base URL is required", and on
    given options it fails with that error exactly when [BaseURL] is
    empty, whatever the other options say. *)
Theorem base_URL_is_required :
  New None = inr (Errorf "base URL is required") /\
  (forall o : Options RoundTripper,
      Validate o = None <-> BaseURL o <> ""%string) /\
  (forall o,
      New (Some o) = inr (Errorf "base URL is required")
      <-> BaseURL o = ""%string).
Proof.
  split; [reflexivity|]. split.
  - intros o. unfold Validate.
    destruct (String.eqb_spec (BaseURL o) ""); split; congruence.
  - intros o. split.
    + new_client_cases o; intros H; try exact Hbase; discriminate H.
    + intros H. unfold NewClient, Validate. rewrite H. reflexivity.
Qed.

(** X8.  A client that [NewClient] returns has the base URL, the timeout
    and the user agent of its options, and the base URL is not empty. *)
Theorem NewClient_keeps_options o c :
  New (Some o) = inl c ->
  BaseURL o <> ""%string /\
  GetBaseURL c = BaseURL o /\
  HC_Timeout (GetHTTPClient c) = Timeout o /\
  userAgent c = UserAgent o.
Proof.
  new_client_cases o; intros H; try discriminate H;
    injection H as <-; repeat split; assumption.
Qed.

(** X9.  [NewClient] returns a client exactly when the base URL is not
    empty, the CA certificate, if one is named, can be read and parsed,
    and the client certificate, if it is named with its key, can be
    loaded.  A [Transport] of the caller's does not spare the files. *)
Theorem NewClient_succeeds_iff o :
  (exists c, New (Some o) = inl c) <->
  BaseURL o <> ""%string /\
  (TLSCACertFile o = ""%string \/
   exists pem pool,
     os_ReadFile (TLSCACertFile o) = inl pem /\
     AppendCertsFromPEM NewCertPool pem = (pool, true)) /\
  (TLSClientCert o = ""%string \/ TLSClientKey o = ""%string \/
   exists cert,
     LoadX509KeyPair (TLSClientCert o) (TLSClientKey o) = inl cert).
Proof.
  split.
  - intros [c H]. revert H.
    new_client_cases o; intros H; try discriminate H;
      (split; [assumption|]); split; eauto.
  - intros (Hb & Hc & Hk). revert Hc Hk.
    new_client_cases o; intros Hc Hk; try contradiction; eauto.
    all: try (destruct Hc as [Hc | (pem' & pool' & Hc & Hp)];
              [contradiction | congruence]).
    all: try (destruct Hk as [Hk | [Hk | (cert' & Hk)]];
              [contradiction | contradiction | congruence]).
Qed.

(** X10.  An error of [NewClient] names what failed, in the order the
    checks are made: the empty base URL; the CA certificate that cannot
    be read, with the error of the read wrapped; the CA file from which
    no certificate is parsed; the client certificate that cannot be
    loaded, with the error of the load wrapped. *)
Theorem NewClient_error_names_the_cause o err :
  New (Some o) = inr err ->
  (BaseURL o = ""%string /\ err = Errorf "base URL is required") \/
  (BaseURL o <> ""%string /\ TLSCACertFile o <> ""%string /\
   ((exists e, os_ReadFile (TLSCACertFile o) = inr e /\
               err = Errorf_w "failed to read CA certificate: %w" e) \/
    (exists pem pool,
        os_ReadFile (TLSCACertFile o) = inl pem /\
        AppendCertsFromPEM NewCertPool pem = (pool, false) /\
        err = Errorf "failed to parse CA certificate"))) \/
  (BaseURL o <> ""%string /\
   TLSClientCert o <> ""%string /\ TLSClientKey o <> ""%string /\
   exists e, LoadX509KeyPair (TLSClientCert o) (TLSClientKey o) = inr e /\
             err = Errorf_w "failed to load client certificate: %w" e).
Proof.
  new_client_cases o; intros H; try discriminate H; injection H as <-.
  all: try (left; split; [assumption | reflexivity]).
  all: try (right; left; split; [assumption|]; split; [assumption|];
            solve [left; eauto | right; eauto]).
  all: right; right; repeat (split; [assumption|]); eauto.
Qed.

(** X11.  A [Transport] given in the options is the transport of the
    client, as it is: the TLS options are checked, and then dropped. *)
Theorem custom_transport_wins o c rt :
  New (Some o) = inl c ->
  Transport o = Some rt ->
  HC_Transport (GetHTTPClient c) = Some (CustomTransport rt).
Proof.
  new_client_cases o; intros H Ht; try discriminate H;
    injection H as <-; cbn; rewrite Ht; reflexivity.
Qed.

(** X12.  Without a CA file, a client certificate and
    [InsecureSkipVerify], no TLS configuration is made and no file is
    touched: the client has the options' transport, or none, which
    stands for the default one.  [TLSServerName] and [TLSClientKey] alone
    change nothing. *)
Theorem no_tls_options_no_tls_config o :
  BaseURL o <> ""%string ->
  TLSCACertFile o = ""%string ->
  TLSClientCert o = ""%string ->
  InsecureSkipVerify o = false ->
  NewClient RoundTripper CertPool Certificate os_ReadFile NewCertPool
    AppendCertsFromPEM LoadX509KeyPair (Some o) =
    inl {| httpClient :=
             {| HC_Timeout := Timeout o;
                HC_Transport := option_map CustomTransport (Transport o) |};
           baseURL := BaseURL o;
           userAgent := UserAgent o |}.
Proof.
  intros Hb Hc Hk Hs.
  unfold NewClient, Validate, configure_tls.
  rewrite Hc, Hk, Hs.
  destruct (String.eqb_spec (BaseURL o) ""); [contradiction|].
  cbn. destruct (Transport o); reflexivity.
Qed.

(** X13.  With no [Transport] of the caller's and one of the TLS options
    set, the client gets an [http.Transport] whose TLS configuration has
    the options' [InsecureSkipVerify] and server name; root CAs exactly
    when a CA file is named, the pool being a new one with the file
    added; and the client certificate exactly when both its file and its
    key are named, so a certificate without a key is left out. *)
Theorem tls_config_of_new_client o c :
  New (Some o) = inl c ->
  Transport o = None ->
  TLSCACertFile o <> ""%string \/ TLSClientCert o <> ""%string
  \/ InsecureSkipVerify o = true ->
  exists cfg,
    HC_Transport (GetHTTPClient c) = Some (HttpTransport cfg) /\
    TLS_InsecureSkipVerify cfg = InsecureSkipVerify o /\
    TLS_ServerName cfg = TLSServerName o /\
    (TLSCACertFile o = ""%string -> TLS_RootCAs cfg = None) /\
    (TLSCACertFile o <> ""%string ->
     exists pem,
       os_ReadFile (TLSCACertFile o) = inl pem /\
       TLS_RootCAs cfg = Some (fst (AppendCertsFromPEM NewCertPool pem))) /\
    (TLSClientCert o = ""%string \/ TLSClientKey o = ""%string ->
     TLS_Certificates cfg = []) /\
    (TLSClientCert o <> ""%string -> TLSClientKey o <> ""%string ->
     exists cert,
       LoadX509KeyPair (TLSClientCert o) (TLSClientKey o) = inl cert /\
       TLS_Certificates cfg = [cert]).
Proof.
  new_client_cases o; intros H Ht Htls; try discriminate H;
    injection H as <-; cbn; rewrite Ht;
    try (exfalso; destruct Htls as [?|[?|?]]; congruence).
  all: eexists; split; [reflexivity|];
    cbn [TLS_InsecureSkipVerify TLS_ServerName TLS_RootCAs TLS_Certificates];
    rewrite ?Hskip, ?Hpem; cbn [fst];
    repeat split; try reflexivity; try congruence; try tauto; eauto.
  all: intros _; exists pem; rewrite Hpem; split; reflexivity.
Qed.

End ClientFacts.

(** ** Sending a request *)

Section SendingFacts.

Variables RoundTripper CertPool Certificate : Type.
Variable Net : Type.
Variable http_Do :
  HttpClient RoundTripper CertPool Certificate -> Http.Request -> Net ->
  (Response + error) * Net.
Variable Ctx : Type.
Variable select_wait : Ctx -> Z -> Net -> option error * Net.
Variable body_Close : Response -> Net -> Net.

Local Abbreviation Client := (Client RoundTripper CertPool Certificate).

(** Lines 114-116 change nothing on a request they have been through. *)
Lemma with_user_agent_idempotent (c : Client) req :
  with_user_agent c (with_user_agent c req) = with_user_agent c req.
Proof.
  unfold with_user_agent.
  destruct (String.eqb_spec (userAgent c) "") as [Hua|Hua]; cbn [negb andb].
  - reflexivity.
  - destruct (String.eqb_spec
                (Http.Header_Get (Http.Header_ req) "User-Agent") "")
      as [Hget|Hget].
    + cbn [Http.Header_]. rewrite Header_Get_Set.
      destruct (String.eqb_spec (userAgent c) ""); [contradiction|].
      reflexivity.
    + destruct (String.eqb_spec
                  (Http.Header_Get (Http.Header_ req) "User-Agent") "");
        [contradiction | reflexivity].
Qed.

(** X14.  [Do] hands the request to the [http.Client] of the client with
    the client's user agent as its [User-Agent] header when the request
    has none, or an empty one, and the client has one; a [User-Agent] the
    request already has is kept, and so are all other headers, the
    method and the URL.  The answer is the [http.Client]'s. *)
Theorem Do_fills_in_user_agent (c : Client) req net :
  let sent_req := snd (fst (Do http_Do c req net)) in
  (fst (fst (Do http_Do c req net)), snd (Do http_Do c req net))
    = http_Do (httpClient c) sent_req net /\
  Http.Header_Get (Http.Header_ sent_req) "User-Agent" =
    (if (Http.Header_Get (Http.Header_ req) "User-Agent" =? "")%string
     then userAgent c
     else Http.Header_Get (Http.Header_ req) "User-Agent") /\
  (forall key, key <> "User-Agent"%string ->
     Http.lookup key (Http.Header_ sent_req)
     = Http.lookup key (Http.Header_ req)) /\
  Http.Method sent_req = Http.Method req /\
  Http.URL sent_req = Http.URL req /\
  (userAgent c = ""%string
   \/ Http.Header_Get (Http.Header_ req) "User-Agent" <> ""%string ->
   sent_req = req).
Proof.
  intros sent_req.
  assert (Hs : sent_req = with_user_agent c req).
  { unfold sent_req, Do.
    destruct (http_Do (httpClient c) (with_user_agent c req) net).
    reflexivity. }
  split.
  { rewrite Hs. unfold Do.
    destruct (http_Do (httpClient c) (with_user_agent c req) net).
    reflexivity. }
  rewrite Hs. clear Hs sent_req. unfold with_user_agent.
  destruct (String.eqb_spec (userAgent c) "") as [Hua|Hua];
    destruct (String.eqb_spec
                (Http.Header_Get (Http.Header_ req) "User-Agent") "")
      as [Hget|Hget];
    cbn [negb andb Http.Header_ Http.Method Http.URL];
    rewrite ?Header_Get_Set;
    repeat split; try congruence; try tauto.
  intros key Hkey. apply lookup_Set_other. exact Hkey.
Qed.

Local Abbreviation wDo :=
  (world_Do RoundTripper CertPool Certificate Net http_Do).
Local Abbreviation wSelect := (world_select Net Ctx select_wait).
Local Abbreviation wClose := (world_Close Net body_Close).

(** A pass sends the request at most once, as [Do] leaves it, and leaves
    it so. *)
Lemma body_sends conv_oor (c : Client) ctx r attempt lastErr w ctl tr w' :
  attempt_body conv_oor (ClientWorld Net) unit Ctx (wDo c) wSelect wClose
    ctx tt r attempt lastErr w = (ctl, tr, w') ->
  (invocations tr = 0 /\ sent w' = sent w /\ request w' = request w) \/
  (invocations tr = 1 /\
   sent w' = sent w ++ [with_user_agent c (request w)] /\
   request w' = with_user_agent c (request w)).
Proof.
  unfold attempt_body, backoff_wait, world_Do, world_select, world_Close, Do.
  destruct (attempt >? 0).
  - destruct (select_wait ctx _ (network w)) as [[ctxErr|] net1];
      cbn [network sent request].
    + intros H; injection H as <- <- <-. left. repeat split.
    + destruct (http_Do (httpClient c) (with_user_agent c (request w)) net1)
        as [[resp|err] net2];
        repeat match goal with
        | |- context [if ?b then _ else _] => destruct b
        end;
        intros H; injection H as <- <- <-; right; repeat split.
  - destruct (http_Do (httpClient c) (with_user_agent c (request w))
                (network w)) as [[resp|err] net2];
      repeat match goal with
      | |- context [if ?b then _ else _] => destruct b
      end;
      intros H; injection H as <- <- <-; right; repeat split.
Qed.

Lemma invocations_nonneg tr : 0 <= invocations tr.
Proof.
  induction tr as [|[k d done|k res|resp] tr IH]; cbn [invocations]; lia.
Qed.

(** From any world on, the loop sends the request of that world as [Do]
    leaves it, once for each invocation. *)
Lemma loop_sends conv_oor (c : Client) ctx r attempt lastErr w :
  let res := attempt_loop conv_oor (ClientWorld Net) unit Ctx
               (wDo c) wSelect wClose ctx tt r attempt lastErr w in
  sent (world_of res) =
    sent w ++ repeat (with_user_agent c (request w))
                (Z.to_nat (invocations (trace_of res))) /\
  request (world_of res) =
    (if invocations (trace_of res) =? 0 then request w
     else with_user_agent c (request w)).
Proof.
  revert attempt lastErr w.
  apply (loop_ind conv_oor (ClientWorld Net) unit Ctx (wDo c) wSelect wClose
           ctx tt r
           (fun _ _ w res =>
              sent (world_of res) =
                sent w ++ repeat (with_user_agent c (request w))
                            (Z.to_nat (invocations (trace_of res))) /\
              request (world_of res) =
                (if invocations (trace_of res) =? 0 then request w
                 else with_user_agent c (request w)))).
  - intros a l w _. unfold world_of, trace_of. cbn.
    rewrite app_nil_r. split; reflexivity.
  - intros a l w x tr w' _ Hb. unfold world_of, trace_of. cbn [fst snd].
    destruct (body_sends _ _ _ _ _ _ _ _ _ _ Hb) as [(-> & -> & ->)|(-> & -> & ->)];
      cbn; rewrite ?app_nil_r; split; reflexivity.
  - intros a l w l' tr w' x tr' w'' _ Hb _ [IHs IHr].
    unfold world_of, trace_of in *. cbn [fst snd] in *.
    rewrite invocations_app. pose proof (invocations_nonneg tr') as Hpos.
    destruct (body_sends _ _ _ _ _ _ _ _ _ _ Hb)
      as [(Hi & Hs & Hr)|(Hi & Hs & Hr)]; rewrite Hi.
    + rewrite Hs, Hr in IHs. rewrite Hr in IHr.
      rewrite Z.add_0_l. split; assumption.
    + rewrite Hs, Hr, with_user_agent_idempotent in IHs.
      rewrite Hr, with_user_agent_idempotent in IHr.
      split.
      * rewrite IHs, <- app_assoc.
        replace (Z.to_nat (1 + invocations tr'))
          with (S (Z.to_nat (invocations tr'))) by lia.
        reflexivity.
      * destruct (Z.eqb_spec (1 + invocations tr') 0); [lia|].
        rewrite IHr. destruct (invocations tr' =? 0); reflexivity.
Qed.


(** X15.  In a call of [DoRequestWithRetry] on a client, every attempt
    hands the same request to the [http.Client]: the caller's request
    with the user agent filled in by the first [Do]; there are as many
    such requests as invocations in the trace; and the caller's request
    is left as the first [Do] made it, or untouched when no attempt was
    made. *)
Theorem retries_send_the_same_request conv_oor (c : Client) ctx req
    retryOpts net :
  let res := Client_DoRequestWithRetry RoundTripper CertPool Certificate Net
               http_Do Ctx select_wait body_Close conv_oor c ctx req
               retryOpts net in
  sent (world_of res) =
    repeat (with_user_agent c req) (Z.to_nat (invocations (trace_of res))) /\
  request (world_of res) =
    (if invocations (trace_of res) =? 0 then req else with_user_agent c req).
Proof.
  intros res.
  exact (loop_sends conv_oor c ctx (effective_options retryOpts) 0 None
           {| request := req; sent := []; network := net |}).
Qed.

End SendingFacts.

(** * The retry policy, continued *)

(** X16.  [IsRetryableError] reads the status codes as a set, and of the
    other options only whether [MaxRetries] is zero: two policies with
    the same codes in any order and number, both with or both without
    retries, agree on every outcome. *)
Theorem IsRetryableError_codes_as_set (r1 r2 : RetryOptions)
    (err : option error) (statusCode : Z) :
  (MaxRetries r1 = 0 <-> MaxRetries r2 = 0) ->
  (forall code,
      In code (RetryableStatusCodes r1) <-> In code (RetryableStatusCodes r2)) ->
  IsRetryableError r1 err statusCode = IsRetryableError r2 err statusCode.
Proof.
  intros Hzero Hcodes. unfold IsRetryableError.
  destruct (Z.eqb_spec (MaxRetries r1) 0) as [H1|H1];
    destruct (Z.eqb_spec (MaxRetries r2) 0) as [H2|H2]; try tauto.
  destruct err; [reflexivity|].
  pose proof (range_status_codes_In statusCode (RetryableStatusCodes r1)) as Hin1.
  pose proof (range_status_codes_In statusCode (RetryableStatusCodes r2)) as Hin2.
  specialize (Hcodes statusCode).
  destruct (range_status_codes statusCode (RetryableStatusCodes r1));
    destruct (range_status_codes statusCode (RetryableStatusCodes r2));
    try reflexivity; exfalso.
  - assert (true = true) as Ht by reflexivity.
    apply Hin1, Hcodes, Hin2 in Ht. discriminate.
  - assert (true = true) as Ht by reflexivity.
    apply Hin2, Hcodes, Hin1 in Ht. discriminate.
Qed.

(** X17.  Where no operation of the product rounds (a whole multiplier
    [k], a base delay that is not negative, products below [2 ^ 53] at
    the later attempt), the delay does not decrease from an attempt to a
    later one; it is not negative when the ceiling is not; and once it
    is the ceiling it stays the ceiling. *)
Theorem CalculateRetryDelay_monotone (conv_oor : float64 -> Z)
    (r : RetryOptions) (a b k : Z) :
  BackoffMultiplier r = of_int k ->
  0 <= k < 2 ^ 53 ->
  0 <= RetryDelay r ->
  0 <= a <= b ->
  b + 1 < 2 ^ 53 ->
  RetryDelay r * (b + 1) < 2 ^ 53 ->
  RetryDelay r * (b + 1) * k < 2 ^ 53 ->
  CalculateRetryDelay conv_oor r a <= CalculateRetryDelay conv_oor r b /\
  (0 <= MaxRetryDelay r -> 0 <= CalculateRetryDelay conv_oor r a) /\
  (CalculateRetryDelay conv_oor r a = MaxRetryDelay r ->
   CalculateRetryDelay conv_oor r b = MaxRetryDelay r).
Proof.
  intros Hmult Hk Hbase Hab Hb Hprod1 Hprod2.
  assert (Hbase' : RetryDelay r < 2 ^ 53) by nia.
  assert (Hmono : RetryDelay r * (a + 1) <= RetryDelay r * (b + 1)) by nia.
  assert (Hmono' : RetryDelay r * (a + 1) * k
                   <= RetryDelay r * (b + 1) * k) by nia.
  assert (Hpos : 0 <= RetryDelay r * (a + 1) * k) by nia.
  assert (Hra : raw_delay conv_oor r a = RetryDelay r * (a + 1) * k).
  { apply raw_delay_exact; try assumption; lia. }
  assert (Hrb : raw_delay conv_oor r b = RetryDelay r * (b + 1) * k).
  { apply raw_delay_exact; try assumption; lia. }
  unfold CalculateRetryDelay. cbv zeta. rewrite Hra, Hrb.
  destruct (Z.gtb_spec (RetryDelay r * (a + 1) * k) (MaxRetryDelay r));
    destruct (Z.gtb_spec (RetryDelay r * (b + 1) * k) (MaxRetryDelay r));
    repeat split; lia.
Qed.

(** ** Transient failures *)

Section Transient.

Variable conv_oor : float64 -> Z.
Variable r : RetryOptions.

Local Abbreviation loop :=
  (attempt_loop conv_oor Script.World unit unit Script.client_Do
     Script.select_wait Script.body_Close tt tt r).
Local Abbreviation body :=
  (attempt_body conv_oor Script.World unit unit Script.client_Do
     Script.select_wait Script.body_Close tt tt r).

(** From [attempt] on, with the retryable answers [pre] and then the
    response [resp] to come, and a context that is never done. *)
Lemma loop_transient (pre : list (Response + error)) resp rest :
  forall attempt lastErr closed,
  0 <= attempt ->
  attempt + Z.of_nat (List.length pre) <= MaxRetries r < Int64.max_int ->
  forallb (retryable_answer r) pre = true ->
  IsRetryableError r None (StatusCode resp) = false
  \/ attempt + Z.of_nat (List.length pre) = MaxRetries r ->
  let res := loop attempt lastErr
               {| Script.answers := pre ++ inl resp :: rest;
                  Script.signals := [];
                  Script.closed := closed |} in
  exit_of res = ExitResponse resp /\
  invocations (trace_of res) = Z.of_nat (List.length pre) + 1 /\
  final_event (trace_of res)
    = Some (EvDo (attempt + Z.of_nat (List.length pre)) (inl resp)) /\
  Script.answers (world_of res) = rest.
Proof.
  induction pre as [|p pre IH]; intros a l cl Ha Hlen Hpre Hlast res.
  - cbn [List.length Z.of_nat app] in *. rewrite Z.add_0_r in *.
    assert (Hmax : maxAttempts r = MaxRetries r + 1)
      by (apply add_1_exact; unfold Int64.min_int; lia).
    assert (Hb : body a l {| Script.answers := inl resp :: rest;
                             Script.signals := [];
                             Script.closed := cl |}
                 = (Return (ExitResponse resp),
                    waited conv_oor r a ++ [EvDo a (inl resp)],
                    {| Script.answers := rest; Script.signals := [];
                       Script.closed := cl |})).
    { unfold attempt_body, backoff_wait, waited.
      assert (Hcond : IsRetryableError r None (StatusCode resp)
                      && (a <? MaxRetries r) = false).
      { destruct Hlast as [-> | ->]; [reflexivity|].
        rewrite Z.ltb_irrefl. apply andb_false_r. }
      destruct (a >? 0); cbn; rewrite Hcond; reflexivity. }
    assert (Hlt : a < maxAttempts r) by lia.
    unfold res. rewrite (loop_return _ _ _ _ _ _ _ _ _ _ _ _ _ _ _ _ Hlt Hb).
    unfold exit_of, trace_of, world_of. cbn [fst snd Script.answers].
    rewrite invocations_app, invocations_waited, final_event_last.
    repeat split.
  - cbn [forallb] in Hpre. apply andb_prop in Hpre. destruct Hpre as [Hp Hpre].
    cbn [List.length app] in *. rewrite Nat2Z.inj_succ in *.
    assert (Hmax : maxAttempts r = MaxRetries r + 1)
      by (apply add_1_exact; unfold Int64.min_int; lia).
    assert (Hb : exists tr l' cl',
               body a l {| Script.answers := p :: pre ++ inl resp :: rest;
                           Script.signals := [];
                           Script.closed := cl |}
               = (Continue l', tr,
                  {| Script.answers := pre ++ inl resp :: rest;
                     Script.signals := [];
                     Script.closed := cl' |})
               /\ invocations tr = 1).
    { unfold attempt_body, backoff_wait.
      assert (Hlt : (a <? MaxRetries r) = true) by (apply Z.ltb_lt; lia).
      assert (Hge : (a >=? MaxRetries r) = false)
        by (rewrite Z.geb_leb; apply Z.leb_gt; lia).
      destruct p as [resp0|err0]; cbn [retryable_answer] in Hp;
        destruct (a >? 0); cbn; rewrite Hp, ?Hlt, ?Hge; cbn;
        eexists; eexists; eexists; (split; [reflexivity|]); reflexivity. }
    destruct Hb as (tr & l' & cl' & Hb & Hinv).
    assert (Hlt : a < maxAttempts r) by lia.
    unfold res. rewrite (loop_continue _ _ _ _ _ _ _ _ _ _ _ _ _ _ _ _ Hlt Hb).
    assert (Hlast' : IsRetryableError r None (StatusCode resp) = false
                     \/ a + 1 + Z.of_nat (List.length pre) = MaxRetries r).
    { destruct Hlast as [Hno | Heq]; [left; exact Hno | right; lia]. }
    specialize (IH (a + 1) l' cl' ltac:(lia) ltac:(lia) Hpre Hlast').
    cbv zeta in IH. destruct IH as (Hx & Hinv' & Hfin & Hans).
    destruct (loop (a + 1) l' _) as [[x tr'] w''].
    unfold exit_of, trace_of, world_of in *. cbn [fst snd] in *.
    split; [exact Hx|]. split; [rewrite invocations_app; lia|].
    split; [|exact Hans].
    rewrite final_event_app.
    + rewrite Hfin.
      replace (a + Z.succ (Z.of_nat (List.length pre)))
        with (a + 1 + Z.of_nat (List.length pre)) by lia.
      reflexivity.
    + intros ->. discriminate Hfin.
Qed.

End Transient.

(** X18.  Retryable answers that are fewer than the retries allowed, and
    then a response whose status is not retryable: the call returns that
    response with a nil error, after one invocation for each of those
    answers and one more, and the requester is not invoked again. *)
Theorem succeeds_after_transient_failures (conv_oor : float64 -> Z)
    (r : RetryOptions) (pre : list (Response + error)) (resp : Response)
    (rest : list (Response + error)) :
  Z.of_nat (List.length pre) <= MaxRetries r < Int64.max_int ->
  forallb (retryable_answer r) pre = true ->
  IsRetryableError r None (StatusCode resp) = false ->
  let res := Script.run conv_oor (Some r)
               (Script.start (pre ++ inl resp :: rest) []) in
  returned (exit_of res) = (Some resp, None) /\
  invocations (trace_of res) = Z.of_nat (List.length pre) + 1 /\
  final_event (trace_of res)
    = Some (EvDo (Z.of_nat (List.length pre)) (inl resp)) /\
  Script.answers (world_of res) = rest.
Proof.
  intros Hlen Hpre Hresp res.
  destruct (loop_transient conv_oor r pre resp rest 0 None []
              ltac:(lia) ltac:(lia) Hpre (or_introl Hresp))
    as (Hx & Hinv & Hfin & Hans).
  unfold res, Script.run, DoRequestWithRetry, Script.start.
  cbn [effective_options].
  rewrite Hx. repeat split; assumption.
Qed.

(** * The further properties at work *)

(** Two retries on 503 and a connection that is always refused: three
    invocations and two waits, within the budget. *)
Lemma attempts_within_budget_witness :
  let r := Script.retry_on_503 2 in
  let tr := trace_of (Script.run conv_oor_amd64 (Some r)
                        (Script.start [] [])) in
  Int64.min_int <= MaxRetries r <= Int64.max_int /\
  0 <= invocations tr <= Z.max 0 (MaxRetries r + 1) /\
  Z.of_nat (List.length (waits tr)) <= Z.max 0 (MaxRetries r).
Proof.
  cbv zeta.
  assert (Hrange : Int64.min_int <= MaxRetries (Script.retry_on_503 2)
                   <= Int64.max_int) by (vm_compute; split; discriminate).
  split; [exact Hrange|].
  exact (attempts_within_budget conv_oor_amd64 Script.World unit unit
           Script.client_Do Script.select_wait Script.body_Close tt tt
           (Some (Script.retry_on_503 2)) (Script.start [] []) Hrange).
Defined.

(** The same call waits 200ms and 400ms, under two times the ceiling of
    2s. *)
Lemma backoff_time_bounded_witness :
  let r := Script.retry_on_503 2 in
  let tr := trace_of (Script.run conv_oor_amd64 (Some r)
                        (Script.start [] [])) in
  Int64.min_int <= MaxRetries r <= Int64.max_int /\
  0 <= MaxRetryDelay r /\
  total_wait tr <= Z.max 0 (MaxRetries r) * MaxRetryDelay r.
Proof.
  cbv zeta.
  assert (Hrange : Int64.min_int <= MaxRetries (Script.retry_on_503 2)
                   <= Int64.max_int) by (vm_compute; split; discriminate).
  assert (Hceil : 0 <= MaxRetryDelay (Script.retry_on_503 2))
    by (vm_compute; discriminate).
  split; [exact Hrange|]. split; [exact Hceil|].
  exact (backoff_time_bounded conv_oor_amd64 Script.World unit unit
           Script.client_Do Script.select_wait Script.body_Close tt tt
           (Some (Script.retry_on_503 2)) (Script.start [] []) Hrange Hceil).
Defined.

(** No retries, and a 503: one invocation, and the 503 comes back. *)
Lemma zero_retries_single_attempt_witness :
  MaxRetries (Script.retry_on_503 0) = 0 /\
  Script.run conv_oor_amd64 (Some (Script.retry_on_503 0))
    (Script.start [inl Script.unavailable; inl Script.ok] [])
  = (ExitResponse Script.unavailable,
     [EvDo 0 (inl Script.unavailable)],
     Script.start [inl Script.ok] []).
Proof.
  assert (H0 : MaxRetries (Script.retry_on_503 0) = 0) by reflexivity.
  split; [exact H0|].
  exact (zero_retries_single_attempt conv_oor_amd64 Script.World unit unit
           Script.client_Do Script.select_wait Script.body_Close tt tt
           (Script.retry_on_503 0)
           (Script.start [inl Script.unavailable; inl Script.ok] []) H0).
Defined.

(** Two retries and a connection that is always refused: the error of the
    request of attempt 2 comes back, wrapped as the one after retries. *)
Lemma result_comes_from_last_event_witness :
  let r := Script.retry_on_503 2 in
  let tr := trace_of (Script.run conv_oor_amd64 (Some r)
                        (Script.start [] [])) in
  Int64.min_int <= MaxRetries r <= Int64.max_int /\
  MaxRetries r <> 0 /\
  final_event tr = Some (EvDo (MaxRetries r) (inr Script.connection_refused)).
Proof.
  cbv zeta.
  assert (Hrange : Int64.min_int <= MaxRetries (Script.retry_on_503 2)
                   <= Int64.max_int) by (vm_compute; split; discriminate).
  split; [exact Hrange|].
  exact (result_comes_from_last_event conv_oor_amd64 Script.World unit unit
           Script.client_Do Script.select_wait Script.body_Close tt tt
           (Some (Script.retry_on_503 2)) (Script.start [] []) Hrange).
Defined.

(** A server that always answers 503, under three retries on 503: four
    invocations, three waits, and the last 503 comes back with a nil
    error. *)
Lemma retryable_answers_use_every_attempt_witness :
  let r := Script.retry_on_503 3 in
  let res := DoRequestWithRetry conv_oor_amd64 Constant.World unit unit
               (Constant.client_Do (inl Script.unavailable))
               Constant.select_wait Constant.body_Close tt tt (Some r) tt in
  0 <= MaxRetries r < Int64.max_int /\
  (forall w1,
      retryable_answer r
        (fst (Constant.client_Do (inl Script.unavailable) tt w1)) = true) /\
  (forall d w1, fst (Constant.select_wait tt d w1) = None) /\
  invocations (trace_of res) = MaxRetries r + 1 /\
  Z.of_nat (List.length (waits (trace_of res))) = MaxRetries r /\
  exists answer,
    final_event (trace_of res) = Some (EvDo (MaxRetries r) answer) /\
    returned (exit_of res) =
      match answer with
      | inl resp => (Some resp, None)
      | inr err =>
          (None,
           Some (Errorf_w "failed to execute request after retries: %w" err))
      end.
Proof.
  cbv zeta.
  assert (Hrange : 0 <= MaxRetries (Script.retry_on_503 3) < Int64.max_int)
    by (vm_compute; split; [discriminate | reflexivity]).
  assert (Hretry : forall w1 : Constant.World,
             retryable_answer (Script.retry_on_503 3)
               (fst (Constant.client_Do (inl Script.unavailable) tt w1))
             = true) by (intros w1; reflexivity).
  assert (Hquiet : forall (d : Z) (w1 : Constant.World),
             fst (Constant.select_wait tt d w1) = None)
    by (intros d w1; reflexivity).
  split; [exact Hrange|]. split; [exact Hretry|]. split; [exact Hquiet|].
  exact (retryable_answers_use_every_attempt conv_oor_amd64 Constant.World
           unit unit (Constant.client_Do (inl Script.unavailable))
           Constant.select_wait Constant.body_Close tt tt
           (Script.retry_on_503 3) tt Hrange Hretry Hquiet).
Defined.

(** The client of the options with mutual TLS keeps their base URL,
    timeout and user agent. *)
Lemma NewClient_keeps_options_witness :
  let c := {| httpClient :=
                {| HC_Timeout := 5 * Second;
                   HC_Transport :=
                     Some (HttpTransport
                             {| TLS_InsecureSkipVerify := false;
                                TLS_ServerName := "api.example.com";
                                TLS_RootCAs :=
                                  Some ["-----BEGIN CERTIFICATE-----"%string];
                                TLS_Certificates :=
                                  [("client.pem"%string,
                                    "client.key"%string)] |}) |};
              baseURL := "https://api.example.com";
              userAgent := "http-kit" |} in
  Disk.NewClient (Some Disk.mutual_tls) = inl c /\
  BaseURL Disk.mutual_tls <> ""%string /\
  GetBaseURL c = BaseURL Disk.mutual_tls /\
  HC_Timeout (GetHTTPClient c) = Timeout Disk.mutual_tls /\
  userAgent c = UserAgent Disk.mutual_tls.
Proof.
  cbv zeta.
  split; [reflexivity|].
  exact (NewClient_keeps_options Disk.RoundTripper Disk.CertPool
           Disk.Certificate Disk.os_ReadFile Disk.NewCertPool
           Disk.AppendCertsFromPEM Disk.LoadX509KeyPair
           Disk.mutual_tls _ eq_refl).
Defined.

(** A CA file that is not there: the error of the read comes back
    wrapped, and the client certificate is not looked at. *)
Lemma NewClient_error_names_the_cause_witness :
  let o := Disk.missing_ca in
  let err := Errorf_w "failed to read CA certificate: %w" Disk.not_exist in
  Disk.NewClient (Some o) = inr err /\
  ((BaseURL o = ""%string /\ err = Errorf "base URL is required") \/
   (BaseURL o <> ""%string /\ TLSCACertFile o <> ""%string /\
    ((exists e, Disk.os_ReadFile (TLSCACertFile o) = inr e /\
                err = Errorf_w "failed to read CA certificate: %w" e) \/
     (exists pem pool,
         Disk.os_ReadFile (TLSCACertFile o) = inl pem /\
         Disk.AppendCertsFromPEM Disk.NewCertPool pem = (pool, false) /\
         err = Errorf "failed to parse CA certificate"))) \/
   (BaseURL o <> ""%string /\
    TLSClientCert o <> ""%string /\ TLSClientKey o <> ""%string /\
    exists e,
      Disk.LoadX509KeyPair (TLSClientCert o) (TLSClientKey o) = inr e /\
      err = Errorf_w "failed to load client certificate: %w" e)).
Proof.
  cbv zeta.
  split; [reflexivity|].
  exact (NewClient_error_names_the_cause Disk.RoundTripper Disk.CertPool
           Disk.Certificate Disk.os_ReadFile Disk.NewCertPool
           Disk.AppendCertsFromPEM Disk.LoadX509KeyPair
           Disk.missing_ca _ eq_refl).
Defined.

(** Options with mutual TLS and the caller's own transport: the client's
    transport is the caller's. *)
Lemma custom_transport_wins_witness :
  let c := {| httpClient :=
                {| HC_Timeout := 5 * Second;
                   HC_Transport :=
                     Some (CustomTransport "round tripper"%string) |};
              baseURL := "https://api.example.com";
              userAgent := "http-kit" |} in
  Disk.NewClient (Some Disk.own_transport) = inl c /\
  Transport Disk.own_transport = Some "round tripper"%string /\
  HC_Transport (GetHTTPClient c)
  = Some (@CustomTransport Disk.RoundTripper Disk.CertPool Disk.Certificate
            "round tripper"%string).
Proof.
  cbv zeta.
  split; [reflexivity|]. split; [reflexivity|].
  exact (custom_transport_wins Disk.RoundTripper Disk.CertPool
           Disk.Certificate Disk.os_ReadFile Disk.NewCertPool
           Disk.AppendCertsFromPEM Disk.LoadX509KeyPair
           Disk.own_transport _ "round tripper"%string eq_refl eq_refl).
Defined.

(** Options with no TLS option set: a client on the default transport. *)
Lemma no_tls_options_no_tls_config_witness :
  BaseURL Disk.plain <> ""%string /\
  TLSCACertFile Disk.plain = ""%string /\
  TLSClientCert Disk.plain = ""%string /\
  InsecureSkipVerify Disk.plain = false /\
  Disk.NewClient (Some Disk.plain) =
    inl {| httpClient := {| HC_Timeout := 5 * Second; HC_Transport := None |};
           baseURL := "https://api.example.com";
           userAgent := "http-kit" |}.
Proof.
  assert (Hb : BaseURL Disk.plain <> ""%string) by discriminate.
  split; [exact Hb|]. repeat (split; [reflexivity|]).
  exact (no_tls_options_no_tls_config Disk.RoundTripper Disk.CertPool
           Disk.Certificate Disk.os_ReadFile Disk.NewCertPool
           Disk.AppendCertsFromPEM Disk.LoadX509KeyPair
           Disk.plain Hb eq_refl eq_refl eq_refl).
Defined.

(** The options with mutual TLS: the configuration has the server name,
    the pool with the CA file in it, and the client certificate. *)
Lemma tls_config_of_new_client_witness :
  let o := Disk.mutual_tls in
  exists c,
    Disk.NewClient (Some o) = inl c /\
    Transport o = None /\
    (TLSCACertFile o <> ""%string \/ TLSClientCert o <> ""%string
     \/ InsecureSkipVerify o = true) /\
    exists cfg,
      HC_Transport (GetHTTPClient c) = Some (HttpTransport cfg) /\
      TLS_InsecureSkipVerify cfg = false /\
      TLS_ServerName cfg = "api.example.com"%string /\
      TLS_RootCAs cfg = Some ["-----BEGIN CERTIFICATE-----"%string] /\
      TLS_Certificates cfg = [("client.pem"%string, "client.key"%string)].
Proof.
  cbv zeta.
  assert (Htls : TLSCACertFile Disk.mutual_tls <> ""%string
                 \/ TLSClientCert Disk.mutual_tls <> ""%string
                 \/ InsecureSkipVerify Disk.mutual_tls = true)
    by (left; discriminate).
  eexists. split; [reflexivity|]. split; [reflexivity|].
  split; [exact Htls|].
  destruct (tls_config_of_new_client Disk.RoundTripper Disk.CertPool
              Disk.Certificate Disk.os_ReadFile Disk.NewCertPool
              Disk.AppendCertsFromPEM Disk.LoadX509KeyPair
              Disk.mutual_tls _ eq_refl eq_refl Htls)
    as (cfg & Ht & Hskip & Hname & _ & Hca & _ & Hcert).
  exists cfg. split; [exact Ht|]. split; [exact Hskip|].
  split; [exact Hname|]. split.
  - destruct Hca as (pem & Hread & Hroots); [discriminate|].
    injection Hread as <-. exact Hroots.
  - destruct Hcert as (cert & Hload & Hcerts); [discriminate | discriminate|].
    injection Hload as <-. exact Hcerts.
Defined.

(** A request with an [Accept] header and no user agent, sent by the
    client of the plain options: it goes out with the client's user
    agent, and with its [Accept] header. *)
Lemma Do_fills_in_user_agent_witness :
  let c := {| httpClient := {| HC_Timeout := 5 * Second;
                               HC_Transport := None |};
              baseURL := "https://api.example.com";
              userAgent := "http-kit" |} in
  let sent_req := snd (fst (Do Disk.http_Do c Disk.get_users [])) in
  Http.Header_Get (Http.Header_ sent_req) "User-Agent" = "http-kit"%string /\
  ("Accept"%string <> "User-Agent"%string /\
   Http.lookup "Accept" (Http.Header_ sent_req)
   = Some ["application/json"%string]).
Proof.
  cbv zeta.
  destruct (Do_fills_in_user_agent Disk.RoundTripper Disk.CertPool
              Disk.Certificate Disk.Net Disk.http_Do
              {| httpClient := {| HC_Timeout := 5 * Second;
                                  HC_Transport := None |};
                 baseURL := "https://api.example.com";
                 userAgent := "http-kit" |} Disk.get_users [])
    as (_ & Hua & Hother & _).
  split; [exact Hua|].
  assert (Hne : "Accept"%string <> "User-Agent"%string) by discriminate.
  split; [exact Hne|]. exact (Hother "Accept"%string Hne).
Defined.

(** 503 then 500 with two retries, and 500 then 503 twice with five:
    the same answers. *)
Lemma IsRetryableError_codes_as_set_witness :
  let r1 := {| MaxRetries := 2; RetryDelay := 100 * Millisecond;
               MaxRetryDelay := 2 * Second; BackoffMultiplier := Float64.two;
               RetryableStatusCodes := [503; 500] |} in
  let r2 := {| MaxRetries := 5; RetryDelay := 1 * Second;
               MaxRetryDelay := 1 * Second; BackoffMultiplier := Float64.one;
               RetryableStatusCodes := [500; 503; 503] |} in
  (MaxRetries r1 = 0 <-> MaxRetries r2 = 0) /\
  (forall code,
      In code (RetryableStatusCodes r1) <-> In code (RetryableStatusCodes r2)) /\
  IsRetryableError r1 None 500 = IsRetryableError r2 None 500.
Proof.
  cbv zeta.
  set (r1 := {| MaxRetries := 2; RetryDelay := 100 * Millisecond;
                MaxRetryDelay := 2 * Second; BackoffMultiplier := Float64.two;
                RetryableStatusCodes := [503; 500] |}).
  set (r2 := {| MaxRetries := 5; RetryDelay := 1 * Second;
                MaxRetryDelay := 1 * Second; BackoffMultiplier := Float64.one;
                RetryableStatusCodes := [500; 503; 503] |}).
  assert (Hzero : MaxRetries r1 = 0 <-> MaxRetries r2 = 0)
    by (split; discriminate).
  assert (Hcodes : forall code,
             In code (RetryableStatusCodes r1)
             <-> In code (RetryableStatusCodes r2))
    by (intros code; cbn; tauto).
  split; [exact Hzero|]. split; [exact Hcodes|].
  exact (IsRetryableError_codes_as_set r1 r2 None 500 Hzero Hcodes).
Defined.

(** The default options, from the first retry to the third: 200ms, then
    600ms. *)
Lemma CalculateRetryDelay_monotone_witness :
  let r := DefaultRetryOptions in
  BackoffMultiplier r = of_int 2 /\
  0 <= 2 < 2 ^ 53 /\
  0 <= RetryDelay r /\
  0 <= 0 <= 2 /\
  2 + 1 < 2 ^ 53 /\
  RetryDelay r * (2 + 1) < 2 ^ 53 /\
  RetryDelay r * (2 + 1) * 2 < 2 ^ 53 /\
  CalculateRetryDelay conv_oor_amd64 r 0
  <= CalculateRetryDelay conv_oor_amd64 r 2.
Proof.
  cbv zeta.
  assert (Hmult : BackoffMultiplier DefaultRetryOptions = of_int 2)
    by reflexivity.
  assert (Hk : 0 <= 2 < 2 ^ 53) by (split; [discriminate | reflexivity]).
  assert (Hbase : 0 <= RetryDelay DefaultRetryOptions) by discriminate.
  assert (Hab : 0 <= 0 <= 2) by (split; discriminate).
  assert (Hb : 2 + 1 < 2 ^ 53) by reflexivity.
  assert (Hp1 : RetryDelay DefaultRetryOptions * (2 + 1) < 2 ^ 53)
    by reflexivity.
  assert (Hp2 : RetryDelay DefaultRetryOptions * (2 + 1) * 2 < 2 ^ 53)
    by reflexivity.
  repeat (split; [assumption|]).
  exact (proj1 (CalculateRetryDelay_monotone conv_oor_amd64
                  DefaultRetryOptions 0 2 2 Hmult Hk Hbase Hab Hb Hp1 Hp2)).
Defined.

(** A 503 and a refused connection, then a 200, under three retries on
    503: the 200 comes back after three invocations, and the answer after
    it is not asked for. *)
Lemma succeeds_after_transient_failures_witness :
  let r := Script.retry_on_503 3 in
  let pre := [inl Script.unavailable; inr Script.connection_refused] in
  let res := Script.run conv_oor_amd64 (Some r)
               (Script.start (pre ++ inl Script.ok
                                :: [inl Script.bad_request]) []) in
  Z.of_nat (List.length pre) <= MaxRetries r < Int64.max_int /\
  forallb (retryable_answer r) pre = true /\
  IsRetryableError r None (StatusCode Script.ok) = false /\
  returned (exit_of res) = (Some Script.ok, None) /\
  invocations (trace_of res) = Z.of_nat (List.length pre) + 1 /\
  final_event (trace_of res)
    = Some (EvDo (Z.of_nat (List.length pre)) (inl Script.ok)) /\
  Script.answers (world_of res) = [inl Script.bad_request].
Proof.
  cbv zeta.
  assert (Hlen : Z.of_nat (List.length
                             [@inl Response error Script.unavailable;
                              inr Script.connection_refused])
                 <= MaxRetries (Script.retry_on_503 3) < Int64.max_int)
    by (split; [discriminate | reflexivity]).
  assert (Hpre : forallb (retryable_answer (Script.retry_on_503 3))
                   [inl Script.unavailable; inr Script.connection_refused]
                 = true) by reflexivity.
  assert (Hok : IsRetryableError (Script.retry_on_503 3) None
                  (StatusCode Script.ok) = false) by reflexivity.
  split; [exact Hlen|]. split; [exact Hpre|]. split; [exact Hok|].
  exact (succeeds_after_transient_failures conv_oor_amd64
           (Script.retry_on_503 3)
           [inl Script.unavailable; inr Script.connection_refused]
           Script.ok [inl Script.bad_request] Hlen Hpre Hok).
Defined.
